(** * TCurlyArc: curly and wavy arcs for Feynman diagrams

    A shallow embedding of graf2d/graf/src/TCurlyArc.cxx and the properties
    its specification states about it.

    Conventions of the embedding
    - [Double_t] is idealised as a real number: the arithmetic of the source
      is read without rounding, and comparisons are the comparisons of [R].
      Where the rounding of binary64 decides what the code does, the same
      lines are read a second time over the floating-point numbers of the
      kernel, in the module [Binary64]; and a double that goes through the
      text of a stream comes back as the stream and its reader make it.
    - [Int_t] and [Long64_t] are integers of [Z]; signed overflow is undefined
      behaviour in C++ and is outside the model.
    - The global [gPad], the object under edition, the class statics, the
      function statics of [ExecuteEvent] and a trace of the calls made to
      collaborators form the [World] that every member function transforms. *)

From stdpp Require Import base list.
From Stdlib Require Import Reals ZArith String Ascii Lra Lia.
From Stdlib Require PrimFloat.

#[local] Open Scope R_scope.

(** ** Numbers *)

Module Num.

Definition ltb (x y : R) : bool := if Rlt_dec x y then true else false.
Definition gtb (x y : R) : bool := ltb y x.

(** The conversion [Int_t(d)] of a double: truncation toward zero. *)
Definition Int_t_of (d : R) : Z :=
  if Rle_dec 0 d then Int_part d else (- Int_part (- d))%Z.

End Num.

(** ** TMath *)

(** Modelled from the spec: TMath.h is not among the sources. [Pi], [Abs],
    [Sqrt] and [ATan2] are the mathematical functions they name; [ATan2 y x]
    is the angle of the point (x, y) in (-pi, pi], and 0 at the origin. *)

Module TMath.

Definition Pi : R := PI.
Definition Abs (x : R) : R := Rabs x.
Definition AbsI (n : Z) : Z := Z.abs n.
Definition Sqrt (x : R) : R := sqrt x.

Definition ATan2 (y x : R) : R :=
  if Req_dec_T x 0 then
    if Req_dec_T y 0 then 0
    else if Rlt_dec 0 y then PI / 2 else - (PI / 2)
  else if Rlt_dec 0 x then atan (y / x)
  else if Rle_dec 0 y then atan (y / x) + PI
  else atan (y / x) - PI.

End TMath.

(** ** The host surface *)

(** Modelled from the spec: TVirtualPad is not among the sources. The pad is
    the record of the queries and coordinate transforms the arc calls on
    [gPad]; nothing is assumed of them beyond their types. *)

Record TVirtualPad : Type := mkPad {
  GetWw : Z;
  GetWh : Z;
  GetAbsWNDC : R;
  GetAbsHNDC : R;
  GetX1 : R;
  GetX2 : R;
  GetY1 : R;
  GetY2 : R;
  XtoAbsPixel : R -> Z;
  YtoAbsPixel : R -> Z;
  XtoPixel : R -> Z;
  YtoPixel : R -> Z;
  VtoPixel : R -> Z;
  PixeltoX : Z -> R;
  PixeltoY : Z -> R;
  AbsPixeltoX : Z -> R;
  AbsPixeltoY : Z -> R;
  OpaqueMoving : bool
}.

(** ** The object *)

(** The data members of a TCurlyArc: those it inherits from TCurlyLine and
    TPolyLine (end points, wave parameters, the polyline [fX], [fY] of
    [fNsteps] points) and its own. *)
Record TCurlyArc : Type := mkArc {
  fX1 : R;
  fY1 : R;
  fX2 : R;
  fY2 : R;
  fWaveLength : R;
  fAmplitude : R;
  fIsCurly : bool;
  fNsteps : nat;
  fX : list R;
  fY : list R;
  fR1 : R;
  fPhimin : R;
  fPhimax : R;
  fTheta : R
}.

Definition set_fX1 (v : R) (a : TCurlyArc) : TCurlyArc :=
  mkArc v (fY1 a) (fX2 a) (fY2 a) (fWaveLength a) (fAmplitude a) (fIsCurly a)
        (fNsteps a) (fX a) (fY a) (fR1 a) (fPhimin a) (fPhimax a) (fTheta a).
Definition set_fY1 (v : R) (a : TCurlyArc) : TCurlyArc :=
  mkArc (fX1 a) v (fX2 a) (fY2 a) (fWaveLength a) (fAmplitude a) (fIsCurly a)
        (fNsteps a) (fX a) (fY a) (fR1 a) (fPhimin a) (fPhimax a) (fTheta a).
Definition set_fX2 (v : R) (a : TCurlyArc) : TCurlyArc :=
  mkArc (fX1 a) (fY1 a) v (fY2 a) (fWaveLength a) (fAmplitude a) (fIsCurly a)
        (fNsteps a) (fX a) (fY a) (fR1 a) (fPhimin a) (fPhimax a) (fTheta a).
Definition set_fY2 (v : R) (a : TCurlyArc) : TCurlyArc :=
  mkArc (fX1 a) (fY1 a) (fX2 a) v (fWaveLength a) (fAmplitude a) (fIsCurly a)
        (fNsteps a) (fX a) (fY a) (fR1 a) (fPhimin a) (fPhimax a) (fTheta a).
Definition set_fIsCurly (v : bool) (a : TCurlyArc) : TCurlyArc :=
  mkArc (fX1 a) (fY1 a) (fX2 a) (fY2 a) (fWaveLength a) (fAmplitude a) v
        (fNsteps a) (fX a) (fY a) (fR1 a) (fPhimin a) (fPhimax a) (fTheta a).
Definition set_polyline (n : nat) (xs ys : list R) (a : TCurlyArc) : TCurlyArc :=
  mkArc (fX1 a) (fY1 a) (fX2 a) (fY2 a) (fWaveLength a) (fAmplitude a)
        (fIsCurly a) n xs ys (fR1 a) (fPhimin a) (fPhimax a) (fTheta a).
Definition set_fX (xs : list R) (a : TCurlyArc) : TCurlyArc :=
  set_polyline (fNsteps a) xs (fY a) a.
Definition set_fY (ys : list R) (a : TCurlyArc) : TCurlyArc :=
  set_polyline (fNsteps a) (fX a) ys a.
Definition set_fR1 (v : R) (a : TCurlyArc) : TCurlyArc :=
  mkArc (fX1 a) (fY1 a) (fX2 a) (fY2 a) (fWaveLength a) (fAmplitude a)
        (fIsCurly a) (fNsteps a) (fX a) (fY a) v (fPhimin a) (fPhimax a)
        (fTheta a).
Definition set_fPhimin (v : R) (a : TCurlyArc) : TCurlyArc :=
  mkArc (fX1 a) (fY1 a) (fX2 a) (fY2 a) (fWaveLength a) (fAmplitude a)
        (fIsCurly a) (fNsteps a) (fX a) (fY a) (fR1 a) v (fPhimax a)
        (fTheta a).
Definition set_fPhimax (v : R) (a : TCurlyArc) : TCurlyArc :=
  mkArc (fX1 a) (fY1 a) (fX2 a) (fY2 a) (fWaveLength a) (fAmplitude a)
        (fIsCurly a) (fNsteps a) (fX a) (fY a) (fR1 a) (fPhimin a) v
        (fTheta a).

(** The logical fields of the data model: center, radius, angular span, wave
    parameters and rendering mode. *)
Record Fields : Type := mkFields {
  center : R * R;
  radius : R;
  phiMin : R;
  phiMax : R;
  waveLength : R;
  amplitude : R;
  isCurly : bool
}.

Definition fields (a : TCurlyArc) : Fields :=
  mkFields (fX1 a, fY1 a) (fR1 a) (fPhimin a) (fPhimax a)
           (fWaveLength a) (fAmplitude a) (fIsCurly a).

(** ** Events, cursors and the function statics of ExecuteEvent *)

Inductive EEventType : Type :=
| kButton1Down
| kButton1Motion
| kButton1Up
| kMouseMotion
| kArrowKeyPress
| kArrowKeyRelease
| kOtherEvent (code : Z).

Inductive ECursor : Type :=
| kTopSide | kBottomSide | kLeftSide | kRightSide | kMove.

(** [static Int_t px1,py1,npe,r1; static Int_t pxold, pyold;
     static Bool_t pTop, pL, pR, pBot, pINSIDE;
     static Int_t pTx,pTy,pLx,pLy,pRx,pRy,pBx,pBy;]
    The arrays [x], [y] and [npe] only feed the rubber-band drawing and are
    left out with it. *)
Record DragStatics : Type := mkDrag {
  px1 : Z; py1 : Z; r1 : Z;
  pxold : Z; pyold : Z;
  pTop : bool; pL : bool; pR : bool; pBot : bool; pINSIDE : bool;
  pTx : Z; pTy : Z; pLx : Z; pLy : Z;
  pRx : Z; pRy : Z; pBx : Z; pBy : Z
}.

(** Calls the arc makes to its collaborators, in the order they are made. *)
Inductive Call : Type :=
| CurlyLine_Build (obj : TCurlyArc)
| Pad_Modified
| Pad_Update
| Pad_SetCursor (c : ECursor)
| Pad_ShowGuidelines (event : EEventType) (mode : option ascii).

(** ** The world and its state monad *)

Record World : Type := mkWorld {
  gPad : option TVirtualPad;
  this : TCurlyArc;
  fgDefaultWaveLength : R;
  fgDefaultAmplitude : R;
  fgDefaultIsCurly : bool;
  drag : DragStatics;
  trace : list Call
}.

Definition M (A : Type) : Type := World -> A * World.

Definition ret {A} (x : A) : M A := fun w => (x, w).
Definition bind {A B} (c : M A) (k : A -> M B) : M B :=
  fun w => let (x, w') := c w in k x w'.

Declare Scope M_scope.
Delimit Scope M_scope with M.
Notation "x <- c ;; k" := (bind c (fun x => k))
  (at level 100, c at next level, right associativity) : M_scope.
Notation "c ;; k" := (bind c (fun _ => k))
  (at level 100, right associativity) : M_scope.
#[local] Open Scope M_scope.

Definition exec {A} (c : M A) (w : World) : World := snd (c w).
Definition eval {A} (c : M A) (w : World) : A := fst (c w).

Definition get_gPad : M (option TVirtualPad) := fun w => (gPad w, w).
Definition get_this : M TCurlyArc := fun w => (this w, w).
Definition get_drag : M DragStatics := fun w => (drag w, w).
Definition modify_this (f : TCurlyArc -> TCurlyArc) : M unit := fun w =>
  (tt, mkWorld (gPad w) (f (this w)) (fgDefaultWaveLength w)
               (fgDefaultAmplitude w) (fgDefaultIsCurly w) (drag w) (trace w)).
Definition put_drag (d : DragStatics) : M unit := fun w =>
  (tt, mkWorld (gPad w) (this w) (fgDefaultWaveLength w)
               (fgDefaultAmplitude w) (fgDefaultIsCurly w) d (trace w)).
Definition call (c : Call) : M unit := fun w =>
  (tt, mkWorld (gPad w) (this w) (fgDefaultWaveLength w)
               (fgDefaultAmplitude w) (fgDefaultIsCurly w) (drag w)
               (trace w ++ [c])).
Definition put_this (a : TCurlyArc) : M unit := modify_this (fun _ => a).
Definition modify_drag (f : DragStatics -> DragStatics) : M unit := fun w =>
  put_drag (f (drag w)) w.
Definition when (b : bool) (c : M unit) : M unit :=
  if b then c else ret tt.

(** Number of times the Arc Mapper's waveform request occurs in a trace: each
    run of [Build] makes exactly one. *)
Fixpoint builds (t : list Call) : nat :=
  match t with
  | [] => 0
  | CurlyLine_Build _ :: t' => S (builds t')
  | _ :: t' => builds t'
  end.

(** ** Results and geometry records *)

(** The division of [DistancetoPrimitive] is guarded: a zero divisor is an
    outcome of its own. *)
Inductive outcome : Type :=
| Distance (d : Z)
| DivisionByZero.

(** Modelled from the spec: Rectangle_t and TPoint are declared in headers
    that are not among the sources; the bounding box is [{x, y, width,
    height}] in pixels and a point is a pair of pixel coordinates. *)
Module Rectangle_t.
Record t : Type := mk { fX : Z; fY : Z; fWidth : Z; fHeight : Z }.
End Rectangle_t.

Module TPoint.
Record t : Type := mk { GetX : Z; GetY : Z }.
End TPoint.

(** What [SavePrimitive] writes on the stream, one item per [<<]: a string
    literal, the decimal written for a double, [std::endl], or the
    statements that [SaveLineAttributes] writes for a variable name. A
    decimal is kept as the number it denotes, which is the double it was
    written for only when the precision of the stream is enough for it. *)
Inductive Chunk : Type :=
| Str (s : string)
| Decimal (v : R)
| Endl
| LineAttributes (name : string) (statements : list string).

(** The statements of the reconstruction script. *)
Inductive Stmt : Type :=
| NewCurlyArc (x1 y1 rad phimin phimax wl amp : R)
| SetWavyStmt
| LineAttributesStmt
| DrawStmt.

(** ** The member functions *)

Section Model.

(** Modelled from the spec: TCurlyLine::Build, the external Waveform
    Builder, is not among the sources. It reads the object it is called on
    (end points, wave length, amplitude, mode) and the pad, and yields the
    ordered sequence of local offset pairs that becomes the polyline. *)
Variable WaveformBuilder : option TVirtualPad -> TCurlyArc -> list (R * R).

Definition TCurlyLine_Build : M unit :=
  a <- get_this ;;
  pad <- get_gPad ;;
  call (CurlyLine_Build a) ;;
  let pts := WaveformBuilder pad a in
  modify_this (set_polyline (List.length pts) (map fst pts) (map snd pts)).

(** Lines 77-90: the scale factors and the pixel radius. *)
Definition Build_scales (gp : option TVirtualPad) (rad : R) : R * R * R :=
  match gp with
  | Some pad =>
      let ww := IZR (GetWw pad) in
      let wh := IZR (GetWh pad) in
      let pxrange := GetAbsWNDC pad * ww in
      let pyrange := (- GetAbsHNDC pad) * wh in
      let xrange := GetX2 pad - GetX1 pad in
      let yrange := GetY2 pad - GetY1 pad in
      let pixeltoX := xrange / pxrange in
      let pixeltoY := yrange / pyrange in
      (pixeltoX, pixeltoY, rad / pixeltoX)
  | None => (1, 1, rad)
  end.

(** Lines 91-93: the angular sweep and the length of the straight segment. *)
Definition Build_dang (a : TCurlyArc) : R :=
  let dang := fPhimax a - fPhimin a in
  if Num.ltb dang 0 then dang + 360 else dang.

Definition Build_length (a : TCurlyArc) : R :=
  TMath.Pi * fR1 a * Build_dang a / 180.

(** Lines 106-112: the body of the loop, at index [i]. The arrays are
    updated in place; the builder sets [fNsteps] to their length, so the
    reads are in range. *)
Definition Build_point (pixeltoX pixeltoY rPix : R) (a : TCurlyArc) (i : nat)
  : TCurlyArc :=
  match fX a !! i, fY a !! i with
  | Some xvi, Some yvi =>
      let angle := xvi / rPix + fPhimin a * TMath.Pi / 180 in
      let xx := (yvi + rPix) * cos angle in
      let yy := (yvi + rPix) * sin angle in
      let xx := xx * pixeltoX in
      let yy := yy * TMath.Abs pixeltoY in
      let a := set_fX (<[i := xx + fX1 a]> (fX a)) a in
      set_fY (<[i := yy + fY1 a]> (fY a)) a
  | _, _ => a
  end.

Definition Build_loop (pixeltoX pixeltoY rPix : R) (a : TCurlyArc)
  : TCurlyArc :=
  fold_left (Build_point pixeltoX pixeltoY rPix) (seq 0 (fNsteps a)) a.

Definition Build : M unit :=
  a <- get_this ;;
  pad <- get_gPad ;;
  let '(pixeltoX, pixeltoY, rPix) := Build_scales pad (fR1 a) in
  let length := Build_length a in
  let x1sav := fX1 a in
  let y1sav := fY1 a in
  modify_this (set_fX1 0) ;;
  modify_this (set_fY1 0) ;;
  modify_this (set_fX2 length) ;;
  modify_this (set_fY2 0) ;;
  TCurlyLine_Build ;;
  modify_this (set_fX1 x1sav) ;;
  modify_this (set_fY1 y1sav) ;;
  modify_this (Build_loop pixeltoX pixeltoY rPix) ;;
  when (bool_decide (is_Some pad)) (call Pad_Modified).

(** Lines 45-51: the default constructor zeroes the members of the arc;
    [base] is the object as the constructor of TCurlyLine has left it. *)
Definition TCurlyArc_default (base : TCurlyArc) : M unit :=
  put_this (mkArc (fX1 base) (fY1 base) (fX2 base) (fY2 base)
                  (fWaveLength base) (fAmplitude base) (fIsCurly base)
                  (fNsteps base) (fX base) (fY base) 0 0 0 0).

(** Lines 58-70. The members the constructor body leaves to [Build]
    ([fX2], [fY2], the polyline) start zeroed; [Build] assigns them. *)
Definition TCurlyArc_new (x1 y1 rad phimin phimax wl amp : R) : M unit :=
  fun w =>
    (put_this (mkArc x1 y1 0 0 wl amp (fgDefaultIsCurly w) 0 [] []
                     rad phimin phimax 0) ;;
     Build) w.

(** Lines 433-465. *)
Definition SetCenter (x y : R) : M unit :=
  modify_this (set_fX1 x) ;;
  modify_this (set_fY1 y) ;;
  Build.

Definition SetRadius (x : R) : M unit :=
  modify_this (set_fR1 x) ;;
  Build.

Definition SetPhimin (x : R) : M unit :=
  modify_this (set_fPhimin x) ;;
  Build.

Definition SetPhimax (x : R) : M unit :=
  modify_this (set_fPhimax x) ;;
  Build.

(** Lines 470-513: the class statics. *)
Definition SetDefaultWaveLength (WaveLength : R) : M unit := fun w =>
  (tt, mkWorld (gPad w) (this w) WaveLength (fgDefaultAmplitude w)
               (fgDefaultIsCurly w) (drag w) (trace w)).

Definition SetDefaultAmplitude (Amplitude : R) : M unit := fun w =>
  (tt, mkWorld (gPad w) (this w) (fgDefaultWaveLength w) Amplitude
               (fgDefaultIsCurly w) (drag w) (trace w)).

Definition SetDefaultIsCurly (IsCurly : bool) : M unit := fun w =>
  (tt, mkWorld (gPad w) (this w) (fgDefaultWaveLength w)
               (fgDefaultAmplitude w) IsCurly (drag w) (trace w)).

Definition GetDefaultWaveLength : M R := fun w => (fgDefaultWaveLength w, w).
Definition GetDefaultAmplitude : M R := fun w => (fgDefaultAmplitude w, w).
Definition GetDefaultIsCurly : M bool := fun w => (fgDefaultIsCurly w, w).

(** Modelled from the spec: the declaration of the constructor, with the
    default arguments of [wl] and [amp], is in TCurlyArc.h, which is not
    among the sources. Following "process-wide defaults seed new instances
    at construction", a construction that leaves the two arguments out
    passes the current class defaults. *)
Definition TCurlyArc_new_default (x1 y1 rad phimin phimax : R) : M unit :=
  wl <- GetDefaultWaveLength ;;
  amp <- GetDefaultAmplitude ;;
  TCurlyArc_new x1 y1 rad phimin phimax wl amp.

(** Lines 127-129: the distance, in pixels, from the point to the center of
    the arc. *)
Definition pixel_distance (pad : TVirtualPad) (a : TCurlyArc) (px py : Z)
  : R :=
  let pxc := XtoAbsPixel pad (fX1 a) in
  let pyc := YtoAbsPixel pad (fY1 a) in
  TMath.Sqrt (IZR ((pxc - px) * (pxc - px) + (pyc - py) * (pyc - py))).

(** Lines 130-134: the angle of the point as seen from the center, in
    degrees of [0, 360). The two quotients are those of the source; the
    caller has checked the divisor. *)
Definition pixel_angle (pad : TVirtualPad) (a : TCurlyArc) (px py : Z) : R :=
  let pxc := XtoAbsPixel pad (fX1 a) in
  let pyc := YtoAbsPixel pad (fY1 a) in
  let dist := pixel_distance pad a px py in
  let cosa := IZR (px - pxc) / dist in
  let sina := IZR (pyc - py) / dist in
  let phi := TMath.ATan2 sina cosa in
  let phi := if Num.ltb phi 0 then phi + 2 * TMath.Pi else phi in
  phi * 180 / TMath.Pi.

(** Lines 123-143. *)
Definition DistancetoPrimitive (px py : Z) (w : World) : outcome :=
  match gPad w with
  | None => Distance 9999
  | Some pad =>
      let a := this w in
      let dist := pixel_distance pad a px py in
      if Req_dec_T dist 0 then DivisionByZero
      else
        let phi := pixel_angle pad a px py in
        if (if Num.gtb (fPhimax a) (fPhimin a)
            then Num.ltb phi (fPhimin a) || Num.gtb phi (fPhimax a)
            else Num.gtb phi (fPhimin a) && Num.ltb phi (fPhimax a))
        then Distance 9999
        else
          let pxr := (XtoPixel pad (fR1 a) - XtoPixel pad 0)%Z in
          let distr := TMath.Abs (dist - IZR pxr) in
          Distance (Num.Int_t_of distr)
  end.

(** Lines 518-573. *)
Definition GetBBox (w : World) : Rectangle_t.t :=
  match gPad w with
  | None => Rectangle_t.mk 0 0 0 0
  | Some pad =>
      let a := this w in
      let R2 :=
        fR1 a * TMath.Abs (GetY2 pad - GetY1 pad)
        / TMath.Abs (GetX2 pad - GetX1 pad) in
      Rectangle_t.mk
        (XtoPixel pad (fX1 a - fR1 a))
        (YtoPixel pad (fY1 a + R2))
        (XtoPixel pad (fX1 a + fR1 a) - XtoPixel pad (fX1 a - fR1 a))
        (YtoPixel pad (fY1 a - R2) - YtoPixel pad (fY1 a + R2))
  end.

Definition GetBBoxCenter (w : World) : TPoint.t :=
  match gPad w with
  | None => TPoint.mk 0 0
  | Some pad =>
      TPoint.mk (XtoPixel pad (fX1 (this w))) (YtoPixel pad (fY1 (this w)))
  end.

Definition SetBBoxCenter (p : TPoint.t) : M unit :=
  pad <- get_gPad ;;
  match pad with
  | None => ret tt
  | Some pad =>
      modify_this (set_fX1 (PixeltoX pad (TPoint.GetX p))) ;;
      modify_this
        (set_fY1 (PixeltoY pad (TPoint.GetY p - VtoPixel pad 0))) ;;
      Build
  end.

Definition SetBBoxCenterX (x : Z) : M unit :=
  pad <- get_gPad ;;
  match pad with
  | None => ret tt
  | Some pad =>
      modify_this (set_fX1 (PixeltoX pad x)) ;;
      Build
  end.

Definition SetBBoxCenterY (y : Z) : M unit :=
  pad <- get_gPad ;;
  match pad with
  | None => ret tt
  | Some pad =>
      modify_this (set_fY1 (PixeltoY pad (y - VtoPixel pad 0))) ;;
      Build
  end.

(** Lines 579-633: the four edges of the bounding box. Over the real numbers
    the guard of each setter refuses exactly the moves that its assignment
    would turn into a negative radius; over binary64 the two are rounded
    apart, and the lines are read again in the module [Binary64] below. *)
Definition SetBBoxX1 (x : Z) : M unit :=
  pad <- get_gPad ;;
  match pad with
  | None => ret tt
  | Some pad =>
      a <- get_this ;;
      let x1 := PixeltoX pad x in
      if Num.gtb x1 (fX1 a + fR1 a) then ret tt
      else
        modify_this (fun a => set_fR1 ((fX1 a + fR1 a - x1) * 0.5) a) ;;
        modify_this (fun a => set_fX1 (x1 + fR1 a) a)
  end.

Definition SetBBoxX2 (x : Z) : M unit :=
  pad <- get_gPad ;;
  match pad with
  | None => ret tt
  | Some pad =>
      a <- get_this ;;
      let x2 := PixeltoX pad x in
      if Num.ltb x2 (fX1 a - fR1 a) then ret tt
      else
        modify_this (fun a => set_fR1 ((x2 - fX1 a + fR1 a) * 0.5) a) ;;
        modify_this (fun a => set_fX1 (x2 - fR1 a) a)
  end.

Definition SetBBoxY1 (y : Z) : M unit :=
  pad <- get_gPad ;;
  match pad with
  | None => ret tt
  | Some pad =>
      a <- get_this ;;
      let R2 :=
        fR1 a * TMath.Abs (GetY2 pad - GetY1 pad)
        / TMath.Abs (GetX2 pad - GetX1 pad) in
      let y1 := PixeltoY pad (y - VtoPixel pad 0) in
      if Num.ltb y1 (fY1 a - R2) then ret tt
      else
        modify_this (fun a =>
          set_fR1 ((y1 - fY1 a + R2) * 0.5
                   / (TMath.Abs (GetY2 pad - GetY1 pad)
                      / TMath.Abs (GetX2 pad - GetX1 pad))) a) ;;
        modify_this (set_fY1 (y1 - R2))
  end.

Definition SetBBoxY2 (y : Z) : M unit :=
  pad <- get_gPad ;;
  match pad with
  | None => ret tt
  | Some pad =>
      a <- get_this ;;
      let R2 :=
        fR1 a * TMath.Abs (GetY2 pad - GetY1 pad)
        / TMath.Abs (GetX2 pad - GetX1 pad) in
      let y2 := PixeltoY pad (y - VtoPixel pad 0) in
      if Num.gtb y2 (fY1 a + R2) then ret tt
      else
        modify_this (fun a =>
          set_fR1 ((fY1 a + R2 - y2) * 0.5
                   / (TMath.Abs (GetY2 pad - GetY1 pad)
                      / TMath.Abs (GetX2 pad - GetX1 pad))) a) ;;
        modify_this (set_fY1 (y2 + R2))
  end.

(** *** ExecuteEvent, lines 156-408

    The calls to [gVirtualX] and [TAttLine::Modify], which draw the
    rubber band and the four handle boxes in non-opaque mode, write to the
    screen only and are left out, with the arrays that feed them. *)

(** Modelled from the spec: TCurlyLine::SetStartPoint is not among the
    sources. In opaque mode the working geometry is committed at once: the
    start point of the underlying line is the center of the arc, and the
    polyline is rebuilt. *)
Definition SetStartPoint (x y : R) : M unit :=
  modify_this (set_fX1 x) ;;
  modify_this (set_fY1 y) ;;
  Build.

Definition kMaxDiff : Z := 10.

Definition near (p q : Z) : bool := (TMath.AbsI (p - q) <? kMaxDiff)%Z.

(** Lines 205-214: the handles when the button goes down. *)
Definition ExecuteEvent_down (pad : TVirtualPad) : M unit :=
  a <- get_this ;;
  modify_drag (fun d =>
    let px1 := XtoAbsPixel pad (fX1 a) in
    let py1 := YtoAbsPixel pad (fY1 a) in
    let pLx := XtoAbsPixel pad (- fR1 a + fX1 a) in
    let pRx := XtoAbsPixel pad (fR1 a + fX1 a) in
    let r1 := Z.quot (TMath.AbsI (pLx - pRx)) 2 in
    let pTy := (YtoAbsPixel pad (fY1 a) + r1)%Z in
    let pBy := (YtoAbsPixel pad (fY1 a) - r1)%Z in
    mkDrag px1 py1 r1 (pxold d) (pyold d)
           (pTop d) (pL d) (pR d) (pBot d) (pINSIDE d)
           px1 pTy pLx py1 pRx py1 px1 pBy).

(** Lines 237-272: which handle is under the cursor. *)
Definition ExecuteEvent_hover (pad : TVirtualPad) (px py : Z) : M unit :=
  a <- get_this ;;
  d <- get_drag ;;
  let px1 := XtoAbsPixel pad (fX1 a) in
  let py1 := YtoAbsPixel pad (fY1 a) in
  let pTx := px1 in
  let pBx := px1 in
  let pLy := py1 in
  let pRy := py1 in
  let pLx := XtoAbsPixel pad (- fR1 a + fX1 a) in
  let pRx := XtoAbsPixel pad (fR1 a + fX1 a) in
  let pTy := (YtoAbsPixel pad (fY1 a) + Z.quot (TMath.AbsI (pLx - pRx)) 2)%Z in
  let pBy := (YtoAbsPixel pad (fY1 a) - Z.quot (TMath.AbsI (pLx - pRx)) 2)%Z in
  let flags (t l r b i : bool) :=
    mkDrag px1 py1 (r1 d) px py t l r b i pTx pTy pLx pLy pRx pRy pBx pBy in
  if near px pTx && near py pTy then
    call (Pad_SetCursor kTopSide) ;;
    put_drag (flags true false false false false)
  else if near px pBx && near py pBy then
    call (Pad_SetCursor kBottomSide) ;;
    put_drag (flags false false false true false)
  else if near py pLy && near px pLx then
    call (Pad_SetCursor kLeftSide) ;;
    put_drag (flags false true false false false)
  else if near py pRy && near px pRx then
    call (Pad_SetCursor kRightSide) ;;
    put_drag (flags false false true false false)
  else
    call (Pad_SetCursor kMove) ;;
    put_drag (flags false false false false true).

(** Lines 297-391: one step of a drag. *)
Definition ExecuteEvent_motion (pad : TVirtualPad) (event : EEventType)
           (px py : Z) : M unit :=
  let opaque := OpaqueMoving pad in
  d <- get_drag ;;
  let r := r1 d in
  let r := if pTop d then (r + (py - pyold d))%Z else r in
  let r := if pBot d then (r - (py - pyold d))%Z else r in
  let r := if pL d then (r - (px - pxold d))%Z else r in
  let r := if pR d then (r + (px - pxold d))%Z else r in
  when (pTop d || pBot d || pL d || pR d)
    (when opaque
       (SetStartPoint (AbsPixeltoX pad (px1 d)) (AbsPixeltoY pad (py1 d)) ;;
        SetRadius (TMath.Abs (AbsPixeltoX pad (px1 d - r)
                              - AbsPixeltoX pad (px1 d + r)) / 2) ;;
        when (pTop d) (call (Pad_ShowGuidelines event (Some "t"%char))) ;;
        when (pBot d) (call (Pad_ShowGuidelines event (Some "b"%char))) ;;
        when (pL d) (call (Pad_ShowGuidelines event (Some "l"%char))) ;;
        when (pR d) (call (Pad_ShowGuidelines event (Some "r"%char))) ;;
        call Pad_Modified ;;
        call Pad_Update)) ;;
  let dpx := (px - pxold d)%Z in
  let dpy := (py - pyold d)%Z in
  let x1 := if pINSIDE d then (px1 d + dpx)%Z else px1 d in
  let y1 := if pINSIDE d then (py1 d + dpy)%Z else py1 d in
  when (pINSIDE d)
    (when opaque
       (SetStartPoint (AbsPixeltoX pad x1) (AbsPixeltoY pad y1) ;;
        call (Pad_ShowGuidelines event (Some "i"%char)) ;;
        call Pad_Modified ;;
        call Pad_Update)) ;;
  put_drag (mkDrag x1 y1 r px py
                   (pTop d) (pL d) (pR d) (pBot d) (pINSIDE d)
                   x1 (y1 - r) (x1 - r) y1 (x1 + r) y1 x1 (y1 + r)).

(** Lines 394-406: the commit on release. *)
Definition ExecuteEvent_up (pad : TVirtualPad) (event : EEventType)
  : M unit :=
  let opaque := OpaqueMoving pad in
  d <- get_drag ;;
  (if opaque then call (Pad_ShowGuidelines event None)
   else
     modify_this (set_fX1 (AbsPixeltoX pad (px1 d))) ;;
     modify_this (set_fY1 (AbsPixeltoY pad (py1 d))) ;;
     let rLx := AbsPixeltoX pad (px1 d + r1 d) in
     let rRx := AbsPixeltoX pad (px1 d - r1 d) in
     modify_this (set_fR1 (TMath.Abs (rRx - rLx) / 2))) ;;
  Build ;;
  call Pad_Modified.

Definition ExecuteEvent (event : EEventType) (px py : Z) : M unit :=
  gp <- get_gPad ;;
  match gp with
  | None => ret tt
  | Some pad =>
      match event with
      | kArrowKeyPress | kButton1Down =>
          ExecuteEvent_down pad ;;
          ExecuteEvent_hover pad px py
      | kMouseMotion => ExecuteEvent_hover pad px py
      | kArrowKeyRelease | kButton1Motion =>
          ExecuteEvent_motion pad event px py
      | kButton1Up => ExecuteEvent_up pad event
      | kOtherEvent _ => ret tt
      end
  end.

(** *** SavePrimitive, lines 413-428 *)

(** The stream belongs to the caller: [shown d] is the number denoted by the
    decimal that [operator<<] writes for the double [d] at the precision the
    stream has when [SavePrimitive] is called, six significant digits unless
    the caller has changed it. *)
Variable shown : R -> R.

(** [classSaved] is the answer of [gROOT->ClassSaved(TCurlyArc::Class())].
    [attributes] is what [SaveLineAttributes(out, "curlyarc", 1, 1, 1)]
    writes: statements that depend on the line attributes of the arc, which
    are members of [TAttLine] and not fields of the data model. *)
Definition SavePrimitive (classSaved : bool) (attributes : list string)
           (w : World) : list Chunk :=
  let a := this w in
  [Str (if classSaved then "   " else "   TCurlyArc *")%string]
  ++ [Str "curlyarc = new TCurlyArc(";
      Decimal (shown (fX1 a)); Str ","; Decimal (shown (fY1 a)); Str ",";
      Decimal (shown (fR1 a)); Str ",";
      Decimal (shown (fPhimin a)); Str ","; Decimal (shown (fPhimax a));
      Str ",";
      Decimal (shown (fWaveLength a)); Str ",";
      Decimal (shown (fAmplitude a)); Str ");"; Endl]
  ++ (if negb (fIsCurly a)
      then [Str "   curlyarc->SetWavy();"; Endl] else [])
  ++ [LineAttributes "curlyarc" attributes]
  ++ [Str "   curlyarc->Draw();"; Endl].

(** *** The host scripting layer *)

(** Modelled from the spec: the layer that re-executes the emitted
    statements is external. It reads the construction call, then the
    statements that follow it, and runs them in order on the arc they
    name. [parsed v] is the double it reads from a decimal that denotes
    [v]. The statements of the line attributes and [Draw] leave the fields
    of the data model alone. *)
Variable parsed : R -> R.

Definition is_str (s : string) (c : Chunk) : bool :=
  match c with
  | Str s' => String.eqb s s'
  | _ => false
  end.

Definition parse_new (out : list Chunk) : option (Stmt * list Chunk) :=
  match out with
  | decl :: kw :: Decimal x1 :: c1 :: Decimal y1 :: c2 :: Decimal rad :: c3
    :: Decimal phimin :: c4 :: Decimal phimax :: c5 :: Decimal wl :: c6
    :: Decimal amp :: close :: Endl :: rest =>
      if (is_str "   TCurlyArc *" decl || is_str "   " decl)
         && is_str "curlyarc = new TCurlyArc(" kw
         && is_str "," c1 && is_str "," c2 && is_str "," c3
         && is_str "," c4 && is_str "," c5 && is_str "," c6
         && is_str ");" close
      then Some (NewCurlyArc (parsed x1) (parsed y1) (parsed rad)
                             (parsed phimin) (parsed phimax)
                             (parsed wl) (parsed amp), rest)
      else None
  | _ => None
  end.

Fixpoint parse_rest (out : list Chunk) : option (list Stmt) :=
  match out with
  | [] => Some []
  | LineAttributes name _ :: rest =>
      if String.eqb name "curlyarc"
      then option_map (cons LineAttributesStmt) (parse_rest rest)
      else None
  | Str s :: Endl :: rest =>
      if String.eqb s "   curlyarc->SetWavy();"
      then option_map (cons SetWavyStmt) (parse_rest rest)
      else if String.eqb s "   curlyarc->Draw();"
      then option_map (cons DrawStmt) (parse_rest rest)
      else None
  | _ => None
  end.

Definition parse (out : list Chunk) : option (list Stmt) :=
  match parse_new out with
  | Some (s, rest) => option_map (cons s) (parse_rest rest)
  | None => None
  end.

(** Modelled from the spec: TCurlyLine::SetWavy, the wavy-mode toggle, is not
    among the sources. It clears [fIsCurly] and, as every mutation of the
    data model, rebuilds the polyline. *)
Definition SetWavy : M unit :=
  modify_this (set_fIsCurly false) ;;
  Build.

Definition run_stmt (s : Stmt) : M unit :=
  match s with
  | NewCurlyArc x1 y1 rad phimin phimax wl amp =>
      TCurlyArc_new x1 y1 rad phimin phimax wl amp
  | SetWavyStmt => SetWavy
  | LineAttributesStmt => ret tt
  | DrawStmt => ret tt
  end.

Fixpoint run (script : list Stmt) : M unit :=
  match script with
  | [] => ret tt
  | s :: script' => run_stmt s ;; run script'
  end.

(** Modelled from the spec: re-execution of a saved primitive by the
    scripting layer; [None] when the text is not a script of the expected
    shape. *)
Definition replay (out : list Chunk) (w : World) : option World :=
  match parse out with
  | Some script => Some (exec (run script) w)
  | None => None
  end.

End Model.

(** ** The edges of the bounding box in binary64

    Lines 579-633 once more, over the binary64 numbers of the kernel, where
    every operation is rounded to the nearest double as the processor rounds
    it. The guard and the assignment that follows it are two expressions,
    rounded one by one. Each function takes the coordinate of the center and
    the radius, then the abscissa or the ordinate that the pad gives for the
    asked pixel; the two vertical ones take the four bounds of the pad
    first. Each returns the coordinate of the center and the radius after
    the call. [a > b] of the source is [b < a] here. *)
Module Binary64.

Import PrimFloat.

Definition SetBBoxX1 (fX1 fR1 x1 : float) : float * float :=
  if (fX1 + fR1 <? x1)%float then (fX1, fR1)
  else
    let fR1' := ((fX1 + fR1 - x1) * 0.5)%float in
    ((x1 + fR1')%float, fR1').

Definition SetBBoxX2 (fX1 fR1 x2 : float) : float * float :=
  if (x2 <? fX1 - fR1)%float then (fX1, fR1)
  else
    let fR1' := ((x2 - fX1 + fR1) * 0.5)%float in
    ((x2 - fR1')%float, fR1').

Definition SetBBoxY1 (padX1 padX2 padY1 padY2 fY1 fR1 y1 : float)
  : float * float :=
  let R2 := (fR1 * abs (padY2 - padY1) / abs (padX2 - padX1))%float in
  if (y1 <? fY1 - R2)%float then (fY1, fR1)
  else
    ((y1 - R2)%float,
     ((y1 - fY1 + R2) * 0.5
      / (abs (padY2 - padY1) / abs (padX2 - padX1)))%float).

Definition SetBBoxY2 (padX1 padX2 padY1 padY2 fY1 fR1 y2 : float)
  : float * float :=
  let R2 := (fR1 * abs (padY2 - padY1) / abs (padX2 - padX1))%float in
  if (fY1 + R2 <? y2)%float then (fY1, fR1)
  else
    ((y2 + R2)%float,
     ((fY1 + R2 - y2) * 0.5
      / (abs (padY2 - padY1) / abs (padX2 - padX1)))%float).

End Binary64.

(** ** Resize operations

    The operations that write the radius on behalf of the user: the four
    edges of the bounding box and the events of the mouse. *)

Inductive ResizeOp : Type :=
| MoveX1 (x : Z)
| MoveX2 (x : Z)
| MoveY1 (y : Z)
| MoveY2 (y : Z)
| Mouse (event : EEventType) (px py : Z).

Definition resize (B : option TVirtualPad -> TCurlyArc -> list (R * R))
           (op : ResizeOp) : M unit :=
  match op with
  | MoveX1 x => SetBBoxX1 x
  | MoveX2 x => SetBBoxX2 x
  | MoveY1 y => SetBBoxY1 y
  | MoveY2 y => SetBBoxY2 y
  | Mouse event px py => ExecuteEvent B event px py
  end.

Fixpoint resizes (B : option TVirtualPad -> TCurlyArc -> list (R * R))
         (ops : list ResizeOp) : M unit :=
  match ops with
  | [] => ret tt
  | op :: ops' => resize B op ;; resizes B ops'
  end.

(** A property of the object that a computation keeps. *)
Definition keeps {A} (Q : TCurlyArc -> Prop) (c : M A) : Prop :=
  forall w : World, Q (this w) -> Q (this (snd (c w))).

(** An observation of the world that a computation leaves as it is. *)
Definition fixes {T A} (f : World -> T) (c : M A) : Prop :=
  forall w : World, f (snd (c w)) = f w.

(** The invariant of the data model. *)
Definition nonneg_radius (a : TCurlyArc) : Prop := 0 <= fR1 a.

(** ** Concrete hosts, used to run the model on examples *)

(** A pad of 100 x 100 pixels showing the square [0,100] x [0,100]: one pixel
    per unit, the pixel rows counted downward from the top. *)
Definition unitPad (opaque : bool) : TVirtualPad :=
  mkPad 100 100 1 1 0 100 0 100
        (fun x => Num.Int_t_of x)
        (fun y => Num.Int_t_of (100 - y))
        (fun x => Num.Int_t_of x)
        (fun y => Num.Int_t_of (100 - y))
        (fun v => Num.Int_t_of (100 - 100 * v))
        (fun px => IZR px)
        (fun py => - IZR py)
        (fun px => IZR px)
        (fun py => 100 - IZR py)
        opaque.

(** The waveform of zero amplitude: the two end points of the segment. *)
Definition StraightBuilder (gp : option TVirtualPad) (a : TCurlyArc)
  : list (R * R) :=
  [(fX1 a, fY1 a); (fX2 a, fY2 a)].

Definition noDrag : DragStatics :=
  mkDrag 0 0 0 0 0 false false false false false 0 0 0 0 0 0 0 0.

(** An arc whose polyline has not been built yet. *)
Definition rawArc (x1 y1 rad phimin phimax wl amp : R) (curly : bool)
  : TCurlyArc :=
  mkArc x1 y1 0 0 wl amp curly 0 [] [] rad phimin phimax 0.

(** The world at program start (lines 36-38), around a given pad and arc. *)
Definition startWorld (gp : option TVirtualPad) (a : TCurlyArc) : World :=
  mkWorld gp a 0.02 0.01 true noDrag [].

(** The arc of center (50, 50) and radius 10 that runs from 270 degrees
    through 360 to 90 degrees: the right half of the circle. *)
Definition rightHalf : World :=
  startWorld (Some (unitPad false)) (rawArc 50 50 10 270 90 0.02 0.01 true).

(** The arc of center (50, 50) and radius 10 over the upper half circle. *)
Definition upperHalf : World :=
  startWorld (Some (unitPad false)) (rawArc 50 50 10 0 180 0.02 0.01 true).

(** A wavy arc of center (0, 0) and radius 10 over the upper half circle,
    of wave length 2 and amplitude 1. *)
Definition wavyUpperHalf : World :=
  startWorld (Some (unitPad false)) (rawArc 0 0 10 0 180 2 1 false).

(** The integer nearest to a number, the even one of the two when the number
    is half way. [Int_part] is the integer part downward. *)
Definition nearest (q : R) : Z :=
  let n := Int_part q in
  if Rlt_dec (q - IZR n) (/ 2) then n
  else if Rlt_dec (/ 2) (q - IZR n) then (n + 1)%Z
  else if Z.even n then n else (n + 1)%Z.

(** A stream at its default precision: the decimal written has six
    significant digits, the sixth rounded to the nearest. [e] is the exponent
    of the first digit and [unit] the weight of the sixth. *)
Definition sixDigits (d : R) : R :=
  if Req_dec_T d 0 then 0
  else
    let e := Int_part (ln (Rabs d) / ln 10) in
    let unit := powerRZ 10 (e - 5) in
    IZR (nearest (d / unit)) * unit.

(** A reader in the idealisation of [Double_t] as a real number: the double
    read from a decimal is the number the decimal denotes. *)
Definition asDenoted (v : R) : R := v.

(** The upper half circle of center (50, 50) and radius 10, constructed on
    the unit pad with the straight waveform. *)
Definition builtUpperHalf : World :=
  exec (TCurlyArc_new StraightBuilder 50 50 10 0 180 0.02 0.01)
       (startWorld (Some (unitPad false)) (rawArc 0 0 0 0 0 0 0 true)).

(** ** Closed forms used by the statements *)

Section ClosedForms.

Variable B : option TVirtualPad -> TCurlyArc -> list (R * R).

(** The object [Build] hands to the waveform builder: the arc with its
    center at the origin and the straight segment laid along the x axis. *)
Definition segment_of (a : TCurlyArc) : TCurlyArc :=
  set_fY2 0 (set_fX2 (Build_length a) (set_fY1 0 (set_fX1 0 a))).

(** The object [Build] leaves behind. *)
Definition built (gp : option TVirtualPad) (a : TCurlyArc) : TCurlyArc :=
  let pts := B gp (segment_of a) in
  let '(pixeltoX, pixeltoY, rPix) := Build_scales gp (fR1 a) in
  Build_loop pixeltoX pixeltoY rPix
    (set_fY1 (fY1 a)
       (set_fX1 (fX1 a)
          (set_polyline (List.length pts) (map fst pts) (map snd pts)
                        (segment_of a)))).

Definition pad_calls (gp : option TVirtualPad) : list Call :=
  if bool_decide (is_Some gp) then [Pad_Modified] else [].

(** The angular sweep in the words of the specification. *)
Definition sweep (phimin phimax : R) : R :=
  if Rlt_dec (phimax - phimin) 0
  then phimax - phimin + 360
  else phimax - phimin.

(** Step 5 of the Arc Mapper in the words of the specification: where the
    local waveform point [(lx, ly)] lands. *)
Definition arc_point (pixeltoX pixeltoY pixelRadius phimin cx cy : R)
           (p : R * R) : R * R :=
  let '(lx, ly) := p in
  let angle := lx / pixelRadius + phimin * PI / 180 in
  ((ly + pixelRadius) * cos angle * pixeltoX + cx,
   (ly + pixelRadius) * sin angle * Rabs pixeltoY + cy).

End ClosedForms.

(** ** Closed forms of the interaction *)

(** A world around another object. *)
Definition with_this (a : TCurlyArc) (w : World) : World :=
  mkWorld (gPad w) a (fgDefaultWaveLength w) (fgDefaultAmplitude w)
          (fgDefaultIsCurly w) (drag w) (trace w).

(** What a resize or a move has no business with: the angular span, the
    wave parameters and the mode. *)
Definition shape (a : TCurlyArc) : R * R * R * R * bool :=
  (fPhimin a, fPhimax a, fWaveLength a, fAmplitude a, fIsCurly a).

(** Lines 297-308: what one step of a drag adds to the working pixel
    radius, for a cursor that has moved by [(dx, dy)]. *)
Definition radius_step (d : DragStatics) (dx dy : Z) : Z :=
  ((if pTop d then dy else 0) - (if pBot d then dy else 0)
   - (if pL d then dx else 0) + (if pR d then dx else 0))%Z.

(** Lines 297-308, 353-355, 366-371 and 390-391: the function statics after
    one step of a drag that brings the cursor to [(px, py)]. *)
Definition dragged (d : DragStatics) (px py : Z) : DragStatics :=
  let dx := (px - pxold d)%Z in
  let dy := (py - pyold d)%Z in
  let r := (r1 d + radius_step d dx dy)%Z in
  let x1 := if pINSIDE d then (px1 d + dx)%Z else px1 d in
  let y1 := if pINSIDE d then (py1 d + dy)%Z else py1 d in
  mkDrag x1 y1 r px py (pTop d) (pL d) (pR d) (pBot d) (pINSIDE d)
         x1 (y1 - r) (x1 - r) y1 (x1 + r) y1 x1 (y1 + r).

(** The handle flags, in the order top, bottom, left, right, inside. *)
Definition handle_flags (d : DragStatics) : list bool :=
  [pTop d; pBot d; pL d; pR d; pINSIDE d].

(** A drag along a path of cursor positions: one [kButton1Motion] each. *)
Fixpoint drags (B : option TVirtualPad -> TCurlyArc -> list (R * R))
         (path : list (Z * Z)) : M unit :=
  match path with
  | [] => ret tt
  | (px, py) :: path' =>
      ExecuteEvent B kButton1Motion px py ;; drags B path'
  end.

(** A world without host surface. *)
Definition noPadWorld : World :=
  startWorld None (rawArc 50 50 10 0 180 0.02 0.01 true).

(** The upper half circle on an opaque pad, in the middle of a drag of its
    right handle: the statics as a press at (60, 50) leaves them. *)
Definition rightHandleWorld : World :=
  mkWorld (Some (unitPad true)) (rawArc 50 50 10 0 180 0.02 0.01 true)
          0.02 0.01 true
          (mkDrag 50 50 10 60 50 false false true false false
                  50 60 40 50 60 50 50 40)
          [].

(** ** Facts about numbers *)

Module NumFacts.

Lemma ltb_true x y : Num.ltb x y = true <-> x < y.
Proof.
  unfold Num.ltb. destruct (Rlt_dec x y); split; intros; try easy.
Qed.

Lemma ltb_false x y : Num.ltb x y = false <-> y <= x.
Proof.
  unfold Num.ltb. destruct (Rlt_dec x y); split; intros; try easy; lra.
Qed.

Lemma Int_part_IZR (z : Z) : Int_part (IZR z) = z.
Proof.
  symmetry. apply Int_part_spec. split; lra.
Qed.

Lemma Int_t_of_IZR (z : Z) : Num.Int_t_of (IZR z) = z.
Proof.
  unfold Num.Int_t_of. destruct (Rle_dec 0 (IZR z)).
  - apply Int_part_IZR.
  - rewrite <- opp_IZR, Int_part_IZR. lia.
Qed.

Lemma Rabs_le_inv (a b : R) : Rabs a <= b -> - b <= a <= b.
Proof. unfold Rabs. destruct (Rcase_abs a); intros; lra. Qed.

(** Truncation moves a number by less than one. *)
Lemma Int_t_of_error (v : R) : Rabs (IZR (Num.Int_t_of v) - v) <= 1.
Proof.
  unfold Num.Int_t_of. apply Rabs_le. destruct (Rle_dec 0 v).
  - pose proof (base_Int_part v). lra.
  - pose proof (base_Int_part (- v)). rewrite opp_IZR. lra.
Qed.

Lemma Int_part_floor (r : R) (z : Z) :
  IZR z <= r < IZR z + 1 -> Int_part r = z.
Proof. intros H. symmetry. apply Int_part_spec. lra. Qed.

Lemma ln_10_pos : 0 < ln 10.
Proof. rewrite <- ln_1. apply ln_increasing; lra. Qed.

Lemma ln_powerRZ_10 (k : Z) : ln (powerRZ 10 k) = IZR k * ln 10.
Proof. rewrite powerRZ_Rpower by lra. unfold Rpower. apply ln_exp. Qed.

(** The exponent of the first digit of a number. *)
Lemma log10_floor (k : Z) (x : R) :
  powerRZ 10 k <= x < powerRZ 10 (k + 1) ->
  Int_part (ln x / ln 10) = k.
Proof.
  intros [Hl Hu]. pose proof ln_10_pos as L.
  assert (P : 0 < powerRZ 10 k) by (apply powerRZ_lt; lra).
  assert (Hx : 0 < x) by lra.
  assert (A : IZR k * ln 10 <= ln x).
  { rewrite <- ln_powerRZ_10. destruct Hl as [Hl| ->]; [|lra].
    left. apply ln_increasing; assumption. }
  assert (C : ln x < (IZR k + 1) * ln 10).
  { rewrite <- plus_IZR, <- ln_powerRZ_10. apply ln_increasing; assumption. }
  apply Int_part_floor. split.
  - apply Rmult_le_reg_r with (ln 10); [exact L|].
    unfold Rdiv. rewrite Rmult_assoc, Rinv_l by lra. lra.
  - apply Rmult_lt_reg_r with (ln 10); [exact L|].
    unfold Rdiv. rewrite Rmult_assoc, Rinv_l by lra. lra.
Qed.

End NumFacts.

(** ** The stream of six digits on examples *)

Ltac eval_powerRZ :=
  repeat match goal with
  | |- context [powerRZ 10 ?z] =>
      let z' := eval vm_compute in z in
      change (powerRZ 10 z) with (powerRZ 10 z'); unfold powerRZ at 1;
      cbv [Pos.to_nat Pos.iter_op Init.Nat.add pow]
  end.

Lemma nearest_at (n : Z) (q : R) :
  IZR n - / 2 < q < IZR n + / 2 -> nearest q = n.
Proof.
  intros Hn. unfold nearest.
  destruct (base_Int_part q) as [Hlo Hhi].
  set (m := Int_part q) in *.
  destruct (Rlt_dec (q - IZR m) (/ 2)) as [Hl|Hl].
  - apply Z.le_antisymm.
    + apply Z.lt_succ_r, lt_IZR. rewrite succ_IZR. lra.
    + apply Z.lt_succ_r, lt_IZR. rewrite succ_IZR. lra.
  - destruct (Rlt_dec (/ 2) (q - IZR m)) as [Hu|Hu].
    + apply Z.le_antisymm.
      * apply Z.le_succ_l, lt_IZR. lra.
      * apply Z.lt_succ_r, lt_IZR. rewrite succ_IZR, plus_IZR. lra.
    + assert (Hm : (m < n)%Z) by (apply lt_IZR; lra).
      assert (Hm' : (n - 1 < m)%Z) by (apply lt_IZR; rewrite minus_IZR; lra).
      lia.
Qed.

(** A number whose first digit has the weight [10^k] is written as the
    multiple of [10^(k-5)] that is nearest to it. *)
Lemma sixDigits_at (k n : Z) (d : R) :
  powerRZ 10 k <= Rabs d < powerRZ 10 (k + 1) ->
  IZR n - / 2 < d / powerRZ 10 (k - 5) < IZR n + / 2 ->
  sixDigits d = IZR n * powerRZ 10 (k - 5).
Proof.
  intros Hk Hn. unfold sixDigits.
  assert (P : 0 < powerRZ 10 k) by (apply powerRZ_lt; lra).
  destruct (Req_dec_T d 0) as [->|_].
  - rewrite Rabs_R0 in Hk. lra.
  - cbn zeta. rewrite (NumFacts.log10_floor k (Rabs d) Hk).
    rewrite (nearest_at n) by exact Hn. reflexivity.
Qed.

Lemma sixDigits_0 : sixDigits 0 = 0.
Proof. unfold sixDigits. destruct (Req_dec_T 0 0); [reflexivity|lra]. Qed.

Lemma sixDigits_1 : sixDigits 1 = 1.
Proof.
  rewrite (sixDigits_at 0 100000 1).
  - eval_powerRZ; lra.
  - rewrite Rabs_pos_eq by lra. eval_powerRZ; lra.
  - eval_powerRZ; lra.
Qed.

Lemma sixDigits_2 : sixDigits 2 = 2.
Proof.
  rewrite (sixDigits_at 0 200000 2).
  - eval_powerRZ; lra.
  - rewrite Rabs_pos_eq by lra. eval_powerRZ; lra.
  - eval_powerRZ; lra.
Qed.

Lemma sixDigits_10 : sixDigits 10 = 10.
Proof.
  rewrite (sixDigits_at 1 100000 10).
  - eval_powerRZ; lra.
  - rewrite Rabs_pos_eq by lra. eval_powerRZ; lra.
  - eval_powerRZ; lra.
Qed.

Lemma sixDigits_180 : sixDigits 180 = 180.
Proof.
  rewrite (sixDigits_at 2 180000 180).
  - eval_powerRZ; lra.
  - rewrite Rabs_pos_eq by lra. eval_powerRZ; lra.
  - eval_powerRZ; lra.
Qed.

(** Seven digits do not go through: the seventh is rounded away. *)
Lemma sixDigits_of_seven : sixDigits 0.1234567 = 0.123457.
Proof.
  rewrite (sixDigits_at (-1) 123457 0.1234567).
  - eval_powerRZ; lra.
  - rewrite Rabs_pos_eq by lra. eval_powerRZ; lra.
  - eval_powerRZ; lra.
Qed.

(** ** Running the monad in proofs *)

Ltac run_M :=
  cbv [exec eval bind ret get_gPad get_this get_drag modify_this put_this
       put_drag modify_drag call when];
  cbn [fst snd gPad this fgDefaultWaveLength fgDefaultAmplitude
       fgDefaultIsCurly drag trace].

Ltac case_cmp :=
  match goal with
  | |- context [Num.ltb ?x ?y] =>
      let E := fresh "E" in
      destruct (Num.ltb x y) eqn:E;
      [apply NumFacts.ltb_true in E | apply NumFacts.ltb_false in E]
  | |- context [Num.gtb ?x ?y] =>
      let E := fresh "E" in
      unfold Num.gtb;
      destruct (Num.ltb y x) eqn:E;
      [apply NumFacts.ltb_true in E | apply NumFacts.ltb_false in E]
  end.

(** ** Properties of the Arc Mapper *)

Section BuildProperties.

Variable B : option TVirtualPad -> TCurlyArc -> list (R * R).

Lemma Build_eq (w : World) :
  Build B w =
  (tt, mkWorld (gPad w) (built B (gPad w) (this w))
               (fgDefaultWaveLength w) (fgDefaultAmplitude w)
               (fgDefaultIsCurly w) (drag w)
               (trace w ++ CurlyLine_Build (segment_of (this w))
                        :: pad_calls (gPad w))).
Proof.
  unfold Build, built, pad_calls, bind, get_this, get_gPad. cbn.
  destruct (Build_scales (gPad w) (fR1 (this w))) as [[sx sy] rp].
  destruct (bool_decide (is_Some (gPad w)));
    cbv [when call ret modify_this TCurlyLine_Build bind get_this get_gPad
         Build_loop];
    cbn; rewrite <- ?app_assoc; reflexivity.
Qed.

(** The loop only writes the two arrays. *)
Lemma Build_point_frame sx sy rp a i :
  let a' := Build_point sx sy rp a i in
  fX1 a' = fX1 a /\ fY1 a' = fY1 a /\ fX2 a' = fX2 a /\ fY2 a' = fY2 a /\
  fWaveLength a' = fWaveLength a /\ fAmplitude a' = fAmplitude a /\
  fIsCurly a' = fIsCurly a /\ fNsteps a' = fNsteps a /\ fR1 a' = fR1 a /\
  fPhimin a' = fPhimin a /\ fPhimax a' = fPhimax a /\ fTheta a' = fTheta a.
Proof.
  unfold Build_point.
  destruct (fX a !! i), (fY a !! i); cbn; repeat split; reflexivity.
Qed.

Lemma Build_fold_frame sx sy rp l a :
  let a' := fold_left (Build_point sx sy rp) l a in
  fX1 a' = fX1 a /\ fY1 a' = fY1 a /\ fX2 a' = fX2 a /\ fY2 a' = fY2 a /\
  fWaveLength a' = fWaveLength a /\ fAmplitude a' = fAmplitude a /\
  fIsCurly a' = fIsCurly a /\ fNsteps a' = fNsteps a /\ fR1 a' = fR1 a /\
  fPhimin a' = fPhimin a /\ fPhimax a' = fPhimax a /\ fTheta a' = fTheta a.
Proof.
  revert a. induction l as [|i l IH]; intros a; cbn.
  - repeat split; reflexivity.
  - specialize (IH (Build_point sx sy rp a i)). cbn in IH.
    pose proof (Build_point_frame sx sy rp a i) as H. cbn in H.
    intuition congruence.
Qed.

Lemma built_frame gp a :
  fX1 (built B gp a) = fX1 a /\ fY1 (built B gp a) = fY1 a /\
  fX2 (built B gp a) = Build_length a /\ fY2 (built B gp a) = 0 /\
  fWaveLength (built B gp a) = fWaveLength a /\
  fAmplitude (built B gp a) = fAmplitude a /\
  fIsCurly (built B gp a) = fIsCurly a /\
  fNsteps (built B gp a) = List.length (B gp (segment_of a)) /\
  fR1 (built B gp a) = fR1 a /\ fPhimin (built B gp a) = fPhimin a /\
  fPhimax (built B gp a) = fPhimax a /\ fTheta (built B gp a) = fTheta a.
Proof.
  unfold built.
  destruct (Build_scales gp (fR1 a)) as [[sx sy] rp].
  unfold Build_loop.
  match goal with |- context [fold_left ?f ?l ?x] =>
    pose proof (Build_fold_frame sx sy rp l x) as H end.
  cbn in H. intuition.
Qed.

Lemma built_fields gp a : fields (built B gp a) = fields a.
Proof.
  pose proof (built_frame gp a) as H. unfold fields.
  destruct H as (-> & -> & _ & _ & -> & -> & -> & _ & -> & -> & -> & _).
  reflexivity.
Qed.

(** What the loop has done after its first [k] turns: the entries below
    [k] are mapped, the others still hold the local waveform. *)
Lemma Build_fold_lookup sx sy rp (a : TCurlyArc) (k : nat) :
  List.length (fX a) = List.length (fY a) ->
  (k <= List.length (fX a))%nat ->
  let a' := fold_left (Build_point sx sy rp) (seq 0 k) a in
  List.length (fX a') = List.length (fX a) /\
  List.length (fY a') = List.length (fY a) /\
  forall i : nat,
    ((i < k)%nat ->
     forall lx ly, fX a !! i = Some lx -> fY a !! i = Some ly ->
       fX a' !! i =
         Some (fst (arc_point sx sy rp (fPhimin a) (fX1 a) (fY1 a) (lx, ly)))
       /\ fY a' !! i =
         Some (snd (arc_point sx sy rp (fPhimin a) (fX1 a) (fY1 a) (lx, ly))))
    /\ ((k <= i)%nat -> fX a' !! i = fX a !! i /\ fY a' !! i = fY a !! i).
Proof.
  intros Hlen. induction k as [|k IH]; intros Hk; cbn zeta.
  - cbn. repeat split; try reflexivity; intros; lia.
  - assert (Hk' : (k <= List.length (fX a))%nat) by lia.
    specialize (IH Hk'). cbn zeta in IH.
    rewrite seq_S, fold_left_app. cbn [fold_left Nat.add].
    set (b := fold_left (Build_point sx sy rp) (seq 0 k) a) in *.
    destruct IH as (Lx & Ly & IH).
    pose proof (Build_fold_frame sx sy rp (seq 0 k) a) as Fr.
    cbn zeta in Fr. fold b in Fr.
    destruct Fr as (F1 & F2 & _ & _ & _ & _ & _ & _ & _ & F3 & _).
    destruct (IH k) as [_ Hge]. specialize (Hge (le_n k)).
    destruct Hge as [Hx Hy].
    destruct (lookup_lt_is_Some_2 (fX a) k) as [xk Exk]; [lia|].
    destruct (lookup_lt_is_Some_2 (fY a) k) as [yk Eyk]; [lia|].
    unfold Build_point. rewrite Hx, Hy, Exk, Eyk. cbn.
    rewrite !length_insert.
    split; [assumption|]. split; [assumption|]. intros i. split.
    + intros Hi lx ly Ex Ey.
      destruct (decide (i = k)) as [->|Hne].
      * rewrite !list_lookup_insert_eq by lia.
        rewrite Exk in Ex. rewrite Eyk in Ey.
        injection Ex as <-. injection Ey as <-.
        unfold arc_point, TMath.Abs, TMath.Pi. cbn.
        rewrite F1, F2, F3. split; reflexivity.
      * rewrite !list_lookup_insert_ne by congruence.
        destruct (IH i) as [Hlt _]. apply Hlt; [lia|assumption..].
    + intros Hi. rewrite !list_lookup_insert_ne by lia.
      destruct (IH i) as [_ Hge]. apply Hge. lia.
Qed.

(** A span given within one turn is swept over an angle of [0, 360). *)
Lemma sweep_range (phimin phimax : R) :
  -360 <= phimax - phimin < 360 ->
  0 <= sweep phimin phimax < 360.
Proof.
  intros H. unfold sweep. destruct (Rlt_dec (phimax - phimin) 0); lra.
Qed.

(** C4: Build computes the sweep [phiMax - phiMin], adds 360 when it is
    negative, and calls the Waveform Builder exactly once, on an object
    whose center is zeroed and whose straight segment runs from the origin
    to [(pi * radius * dang / 180, 0)]; the wave parameters are handed over
    unchanged, the polyline has as many points as the builder returned for
    that object, and on return the center is the one the arc had before. *)
Theorem Build_passes_arc_length (w : World) :
  let a := this w in
  let dang := sweep (fPhimin a) (fPhimax a) in
  exists (seg : TCurlyArc) (rest : list Call),
    trace (exec (Build B) w) = trace w ++ CurlyLine_Build seg :: rest
    /\ builds rest = 0%nat
    /\ fX1 seg = 0 /\ fY1 seg = 0
    /\ fX2 seg = PI * fR1 a * dang / 180 /\ fY2 seg = 0
    /\ fWaveLength seg = fWaveLength a
    /\ fAmplitude seg = fAmplitude a
    /\ fIsCurly seg = fIsCurly a
    /\ fNsteps (this (exec (Build B) w)) = List.length (B (gPad w) seg)
    /\ fX1 (this (exec (Build B) w)) = fX1 a
    /\ fY1 (this (exec (Build B) w)) = fY1 a.
Proof.
  intros a dang. unfold exec. rewrite Build_eq. cbn [snd trace this].
  exists (segment_of a), (pad_calls (gPad w)).
  pose proof (built_frame (gPad w) a) as Fr.
  repeat split; try reflexivity; try (fold a; tauto).
  - unfold pad_calls. destruct (bool_decide _); reflexivity.
  - cbn. unfold Build_length, Build_dang, TMath.Pi, dang, sweep, Num.ltb.
    destruct (Rlt_dec (fPhimax a - fPhimin a) 0); reflexivity.
Qed.

(** C9: Build sends each local waveform point [(lx, ly)] to the point of
    angle [lx / pixelRadius + phiMin * pi / 180] at distance
    [ly + pixelRadius], scaled by the X factor in x and by the absolute
    value of the Y factor in y, and translated by the center of the arc. *)
Theorem Build_maps_points (w : World) :
  let a := this w in
  let a' := this (exec (Build B) w) in
  let local := B (gPad w) (segment_of a) in
  let '(pixeltoX, pixeltoY, pixelRadius) :=
    Build_scales (gPad w) (fR1 a) in
  let final :=
    map (arc_point pixeltoX pixeltoY pixelRadius (fPhimin a) (fX1 a) (fY1 a))
        local in
  fNsteps a' = List.length local
  /\ fX a' = map fst final
  /\ fY a' = map snd final.
Proof.
  intros a a' local. subst a'. unfold exec. rewrite Build_eq.
  cbn [snd this]. fold a. unfold built. fold local.
  destruct (Build_scales (gPad w) (fR1 a)) as [[sx sy] rp].
  unfold Build_loop. cbn [fNsteps set_fY1 set_fX1 set_polyline].
  match goal with |- context [fold_left _ _ ?x] => set (a0 := x) end.
  assert (Hlen : List.length (fX a0) = List.length (fY a0)).
  { subst a0. cbn. now rewrite !length_map. }
  assert (HlenX : List.length (fX a0) = List.length local).
  { subst a0. cbn. now rewrite length_map. }
  pose proof (Build_fold_frame sx sy rp (seq 0 (List.length local)) a0) as Fr.
  pose proof (Build_fold_lookup sx sy rp a0 (List.length local) Hlen) as Lk.
  cbn zeta in Fr, Lk.
  set (a1 := fold_left (Build_point sx sy rp) (seq 0 (List.length local)) a0)
    in *.
  destruct Lk as (Lx & Ly & Lk); [lia|].
  split; [|split].
  - destruct Fr as (_ & _ & _ & _ & _ & _ & _ & -> & _). reflexivity.
  - apply list_eq. intros i.
    destruct (decide (i < List.length local)%nat) as [Hi|Hi].
    + destruct (lookup_lt_is_Some_2 local i Hi) as [[lx ly] Ei].
      destruct (Lk i) as [Hlt _].
      destruct (Hlt Hi lx ly) as [Hx _].
      * subst a0. cbn. rewrite list_lookup_fmap, Ei. reflexivity.
      * subst a0. cbn. rewrite list_lookup_fmap, Ei. reflexivity.
      * rewrite Hx. rewrite !list_lookup_fmap, Ei. reflexivity.
    + rewrite !lookup_ge_None_2; [reflexivity | | ].
      * rewrite !length_map. lia.
      * lia.
  - apply list_eq. intros i.
    destruct (decide (i < List.length local)%nat) as [Hi|Hi].
    + destruct (lookup_lt_is_Some_2 local i Hi) as [[lx ly] Ei].
      destruct (Lk i) as [Hlt _].
      destruct (Hlt Hi lx ly) as [_ Hy].
      * subst a0. cbn. rewrite list_lookup_fmap, Ei. reflexivity.
      * subst a0. cbn. rewrite list_lookup_fmap, Ei. reflexivity.
      * rewrite Hy. rewrite !list_lookup_fmap, Ei. reflexivity.
    + rewrite !lookup_ge_None_2; [reflexivity | | ].
      * rewrite !length_map. lia.
      * lia.
Qed.

End BuildProperties.

(** ** Properties of the setters *)

Section SetterProperties.

Variable B : option TVirtualPad -> TCurlyArc -> list (R * R).

Lemma builds_app (t u : list Call) :
  builds (t ++ u) = (builds t + builds u)%nat.
Proof.
  induction t as [|c t IH]; cbn; [reflexivity|].
  destruct c; cbn; rewrite IH; reflexivity.
Qed.

Lemma builds_pad_calls gp : builds (pad_calls gp) = 0%nat.
Proof. unfold pad_calls. destruct (bool_decide _); reflexivity. Qed.

(** One run of [Build] is one request to the waveform builder. *)
Lemma Build_builds (w : World) :
  builds (trace (exec (Build B) w)) = S (builds (trace w)).
Proof.
  unfold exec. rewrite Build_eq. cbn [snd trace].
  rewrite builds_app. cbn. rewrite builds_pad_calls. lia.
Qed.

Lemma Build_fields (w : World) :
  fields (this (exec (Build B) w)) = fields (this w).
Proof. unfold exec. rewrite Build_eq. cbn. apply built_fields. Qed.

Lemma Build_globals (w : World) :
  let w' := exec (Build B) w in
  gPad w' = gPad w /\ fgDefaultWaveLength w' = fgDefaultWaveLength w
  /\ fgDefaultAmplitude w' = fgDefaultAmplitude w
  /\ fgDefaultIsCurly w' = fgDefaultIsCurly w /\ drag w' = drag w.
Proof. unfold exec. rewrite Build_eq. cbn. repeat split. Qed.

(** The setters of lines 433-465 and the center setters of the bounding box
    rebuild the polyline once, from the fields they have just written. *)
Lemma setters_rebuild (w : World) (x y : R) :
  builds (trace (exec (SetCenter B x y) w)) = S (builds (trace w))
  /\ builds (trace (exec (SetRadius B x) w)) = S (builds (trace w))
  /\ builds (trace (exec (SetPhimin B x) w)) = S (builds (trace w))
  /\ builds (trace (exec (SetPhimax B x) w)) = S (builds (trace w)).
Proof.
  unfold SetCenter, SetRadius, SetPhimin, SetPhimax.
  repeat split; run_M;
    match goal with |- context [Build B ?v] =>
      change (snd (Build B v)) with (exec (Build B) v) end;
    rewrite Build_builds; reflexivity.
Qed.

Lemma center_setters_rebuild (w : World) (pad : TVirtualPad)
      (p : TPoint.t) (x : Z) :
  gPad w = Some pad ->
  builds (trace (exec (SetBBoxCenter B p) w)) = S (builds (trace w))
  /\ builds (trace (exec (SetBBoxCenterX B x) w)) = S (builds (trace w))
  /\ builds (trace (exec (SetBBoxCenterY B x) w)) = S (builds (trace w)).
Proof.
  intros Hpad. unfold SetBBoxCenter, SetBBoxCenterX, SetBBoxCenterY.
  repeat split; run_M; rewrite Hpad; run_M;
    match goal with |- context [Build B ?v] =>
      change (snd (Build B v)) with (exec (Build B) v) end;
    rewrite Build_builds; reflexivity.
Qed.

(** The edge setters of lines 579-633 write the center and the radius and
    return: the trace and the polyline are the ones they found. *)
Lemma edge_setters_frame (w : World) (x : Z) :
  forall set : Z -> M unit,
    In set [SetBBoxX1; SetBBoxX2; SetBBoxY1; SetBBoxY2] ->
    let w' := exec (set x) w in
    trace w' = trace w
    /\ fNsteps (this w') = fNsteps (this w)
    /\ fX (this w') = fX (this w) /\ fY (this w') = fY (this w).
Proof.
  intros set Hin. cbn in Hin.
  destruct Hin as [<-|[<-|[<-|[<-|[]]]]];
    unfold SetBBoxX1, SetBBoxX2, SetBBoxY1, SetBBoxY2; run_M;
    destruct (gPad w) as [pad|]; run_M; try (repeat split; reflexivity);
    case_cmp; run_M; repeat split; reflexivity.
Qed.

End SetterProperties.

(** ** The bounding box *)

Section BoundingBox.

Variable w : World.
Variable pad : TVirtualPad.
Hypothesis Hpad : gPad w = Some pad.

Lemma SetBBoxX1_this (x : Z) :
  this (exec (SetBBoxX1 x) w) =
  let a := this w in
  let x1 := PixeltoX pad x in
  if Num.gtb x1 (fX1 a + fR1 a) then a
  else set_fX1 (x1 + (fX1 a + fR1 a - x1) * 0.5)
               (set_fR1 ((fX1 a + fR1 a - x1) * 0.5) a).
Proof.
  unfold SetBBoxX1. run_M. rewrite Hpad. run_M.
  destruct (Num.gtb _ _); reflexivity.
Qed.

Lemma SetBBoxX2_this (x : Z) :
  this (exec (SetBBoxX2 x) w) =
  let a := this w in
  let x2 := PixeltoX pad x in
  if Num.ltb x2 (fX1 a - fR1 a) then a
  else set_fX1 (x2 - (x2 - fX1 a + fR1 a) * 0.5)
               (set_fR1 ((x2 - fX1 a + fR1 a) * 0.5) a).
Proof.
  unfold SetBBoxX2. run_M. rewrite Hpad. run_M.
  destruct (Num.ltb _ _); reflexivity.
Qed.

Lemma SetBBoxY1_this (y : Z) :
  this (exec (SetBBoxY1 y) w) =
  let a := this w in
  let ratio := Rabs (GetY2 pad - GetY1 pad) / Rabs (GetX2 pad - GetX1 pad) in
  let R2 :=
    fR1 a * Rabs (GetY2 pad - GetY1 pad) / Rabs (GetX2 pad - GetX1 pad) in
  let y1 := PixeltoY pad (y - VtoPixel pad 0) in
  if Num.ltb y1 (fY1 a - R2) then a
  else set_fY1 (y1 - R2) (set_fR1 ((y1 - fY1 a + R2) * 0.5 / ratio) a).
Proof.
  unfold SetBBoxY1. run_M. rewrite Hpad. run_M.
  destruct (Num.ltb _ _); reflexivity.
Qed.

Lemma SetBBoxY2_this (y : Z) :
  this (exec (SetBBoxY2 y) w) =
  let a := this w in
  let ratio := Rabs (GetY2 pad - GetY1 pad) / Rabs (GetX2 pad - GetX1 pad) in
  let R2 :=
    fR1 a * Rabs (GetY2 pad - GetY1 pad) / Rabs (GetX2 pad - GetX1 pad) in
  let y2 := PixeltoY pad (y - VtoPixel pad 0) in
  if Num.gtb y2 (fY1 a + R2) then a
  else set_fY1 (y2 + R2) (set_fR1 ((fY1 a + R2 - y2) * 0.5 / ratio) a).
Proof.
  unfold SetBBoxY2. run_M. rewrite Hpad. run_M.
  destruct (Num.gtb _ _); reflexivity.
Qed.

Lemma edge_setters_gPad (x : Z) :
  gPad (exec (SetBBoxX1 x) w) = Some pad
  /\ gPad (exec (SetBBoxX2 x) w) = Some pad
  /\ gPad (exec (SetBBoxY1 x) w) = Some pad
  /\ gPad (exec (SetBBoxY2 x) w) = Some pad.
Proof.
  unfold SetBBoxX1, SetBBoxX2, SetBBoxY1, SetBBoxY2.
  repeat split; run_M; rewrite Hpad; run_M;
    destruct (Num.gtb _ _) || destruct (Num.ltb _ _); run_M; assumption.
Qed.

(** A move of the left or right edge past the opposite edge is refused: the
    object is left as it was. *)
Lemma SetBBoxX_rejected (x : Z) :
  (fX1 (this w) + fR1 (this w) < PixeltoX pad x ->
   exec (SetBBoxX1 x) w = w)
  /\ (PixeltoX pad x < fX1 (this w) - fR1 (this w) ->
      exec (SetBBoxX2 x) w = w).
Proof.
  split; intros H; unfold SetBBoxX1, SetBBoxX2; run_M; rewrite Hpad; run_M;
    case_cmp; try reflexivity; lra.
Qed.

(** So is a move of the top edge below the bottom edge, or of the bottom
    edge above the top edge. *)
Lemma SetBBoxY_rejected (y : Z) :
  let R2 :=
    fR1 (this w) * Rabs (GetY2 pad - GetY1 pad)
    / Rabs (GetX2 pad - GetX1 pad) in
  let y' := PixeltoY pad (y - VtoPixel pad 0) in
  (y' < fY1 (this w) - R2 -> exec (SetBBoxY1 y) w = w)
  /\ (fY1 (this w) + R2 < y' -> exec (SetBBoxY2 y) w = w).
Proof.
  cbn zeta.
  split; intros H; unfold SetBBoxY1, SetBBoxY2; run_M; rewrite Hpad; run_M;
    unfold TMath.Abs; case_cmp; try reflexivity; lra.
Qed.

(** The pixel of the right edge read from the box is the same before and
    after the left edge has been moved to its own pixel. *)
Lemma SetBBoxX1_keeps_right_pixel :
  let w1 := exec (SetBBoxX1 (Rectangle_t.fX (GetBBox w))) w in
  (Rectangle_t.fX (GetBBox w1) + Rectangle_t.fWidth (GetBBox w1))%Z
  = (Rectangle_t.fX (GetBBox w) + Rectangle_t.fWidth (GetBBox w))%Z.
Proof.
  intros w1.
  assert (Hpad1 : gPad w1 = Some pad) by (subst w1; apply edge_setters_gPad).
  assert (E : fX1 (this w1) + fR1 (this w1) = fX1 (this w) + fR1 (this w)).
  { subst w1. rewrite SetBBoxX1_this. cbn zeta. case_cmp; cbn; lra. }
  unfold GetBBox. rewrite Hpad, Hpad1. cbn. rewrite E. lia.
Qed.

(** An accepted move of the left (right) edge puts that edge where it was
    asked and keeps the right (left) edge where it was. *)
Lemma SetBBoxX_accepted (x : Z) :
  let a := this w in
  (PixeltoX pad x <= fX1 a + fR1 a ->
   let a' := this (exec (SetBBoxX1 x) w) in
   fX1 a' - fR1 a' = PixeltoX pad x /\ fX1 a' + fR1 a' = fX1 a + fR1 a)
  /\ (fX1 a - fR1 a <= PixeltoX pad x ->
      let a' := this (exec (SetBBoxX2 x) w) in
      fX1 a' + fR1 a' = PixeltoX pad x /\ fX1 a' - fR1 a' = fX1 a - fR1 a).
Proof.
  cbn zeta. split; intros H.
  - rewrite SetBBoxX1_this. cbn zeta. case_cmp; [lra|]. cbn. lra.
  - rewrite SetBBoxX2_this. cbn zeta. case_cmp; [lra|]. cbn. lra.
Qed.

End BoundingBox.

(** C7: with a host surface attached, moving the left edge to its own pixel
    and then the right edge to its own pixel gives back the radius and the
    center up to the error [eps] that the pad makes when a coordinate goes
    to pixels and back; the ordinate of the center is not touched. *)
Theorem bbox_roundtrip_X (w : World) (pad : TVirtualPad) (eps : R) :
  gPad w = Some pad ->
  (forall v : R, Rabs (PixeltoX pad (XtoPixel pad v) - v) <= eps) ->
  let w1 := exec (SetBBoxX1 (Rectangle_t.fX (GetBBox w))) w in
  let box := GetBBox w1 in
  let w2 :=
    exec (SetBBoxX2 (Rectangle_t.fX box + Rectangle_t.fWidth box)) w1 in
  Rabs (fR1 (this w2) - fR1 (this w)) <= eps
  /\ Rabs (fX1 (this w2) - fX1 (this w)) <= eps
  /\ fY1 (this w2) = fY1 (this w).
Proof.
  intros Hpad Herr w1 box w2.
  assert (Hpad1 : gPad w1 = Some pad)
    by (subst w1; apply (edge_setters_gPad w pad Hpad)).
  assert (Hx : (Rectangle_t.fX box + Rectangle_t.fWidth box)%Z
               = XtoPixel pad (fX1 (this w1) + fR1 (this w1))).
  { subst box. unfold GetBBox. rewrite Hpad1. cbn. lia. }
  subst w2. rewrite Hx. rewrite (SetBBoxX2_this w1 pad Hpad1). cbn zeta.
  assert (H1 : this w1 =
               let a := this w in
               let x1 := PixeltoX pad (XtoPixel pad (fX1 a - fR1 a)) in
               if Num.gtb x1 (fX1 a + fR1 a) then a
               else set_fX1 (x1 + (fX1 a + fR1 a - x1) * 0.5)
                            (set_fR1 ((fX1 a + fR1 a - x1) * 0.5) a)).
  { subst w1. rewrite (SetBBoxX1_this w pad Hpad).
    unfold GetBBox. rewrite Hpad. reflexivity. }
  cbn zeta in H1. rewrite H1. clear H1 Hx Hpad1 box w1.
  set (a := this w).
  pose proof (NumFacts.Rabs_le_inv _ _ (Herr (fX1 a - fR1 a))) as E1.
  set (x1 := PixeltoX pad (XtoPixel pad (fX1 a - fR1 a))) in *.
  unfold Num.gtb.
  destruct (Num.ltb (fX1 a + fR1 a) x1) eqn:C1.
  - pose proof (NumFacts.Rabs_le_inv _ _ (Herr (fX1 a + fR1 a))) as E2.
    set (x2 := PixeltoX pad (XtoPixel pad (fX1 a + fR1 a))) in *.
    case_cmp; cbn; repeat split; try reflexivity; apply Rabs_le; lra.
  - apply NumFacts.ltb_false in C1. cbn [fX1 fR1 set_fX1 set_fR1].
    match goal with |- context [XtoPixel pad ?v] =>
      pose proof (NumFacts.Rabs_le_inv _ _ (Herr v)) as E2;
      set (x2 := PixeltoX pad (XtoPixel pad v)) in * end.
    case_cmp; cbn; repeat split; try reflexivity; apply Rabs_le; lra.
Qed.

(** C6: on the unit pad, the arc of center (50, 50) and radius 10 has its
    top edge at 60 and its bottom edge at 40. [SetBBoxY1 30] asks for the top
    edge at 70 and is accepted. The radius becomes 15 and the center ordinate
    60: the bottom edge is now at 45 and the top edge at 75, so the opposite
    edge has not been held and the moved edge is not where it was asked. *)
Theorem SetBBoxY1_moves_opposite_edge :
  let pad := unitPad false in
  let w := startWorld (Some pad) (rawArc 50 50 10 0 180 0.02 0.01 true) in
  let a' := this (exec (SetBBoxY1 30) w) in
  PixeltoY pad (30 - VtoPixel pad 0) = 70
  /\ fR1 a' = 15 /\ fY1 a' = 60
  /\ fY1 a' - fR1 a' <> fY1 (this w) - fR1 (this w)
  /\ fY1 a' + fR1 a' <> 70.
Proof.
  intros pad w a'.
  assert (Hv : VtoPixel pad 0 = 100%Z).
  { cbn. replace (100 - 100 * 0) with (IZR 100) by lra.
    apply NumFacts.Int_t_of_IZR. }
  assert (Hy : PixeltoY pad (30 - VtoPixel pad 0) = 70).
  { rewrite Hv. change (PixeltoY pad (30 - 100)) with (- IZR (-70)). lra. }
  assert (Ha : fR1 a' = 15 /\ fY1 a' = 60).
  { subst a'. rewrite (SetBBoxY1_this w pad eq_refl). cbn zeta.
    rewrite Hy.
    change (GetY2 pad) with 100. change (GetY1 pad) with 0.
    change (GetX2 pad) with 100. change (GetX1 pad) with 0.
    change (fR1 (this w)) with 10. change (fY1 (this w)) with 50.
    replace (100 - 0) with 100 by lra.
    rewrite (Rabs_pos_eq 100) by lra.
    case_cmp; [lra|]. cbn. split; lra. }
  destruct Ha as [Hr Hc]. rewrite Hr, Hc. cbn.
  repeat split; try assumption; lra.
Qed.

(** ** The invariant of the radius *)

Section RadiusInvariant.

Variable B : option TVirtualPad -> TCurlyArc -> list (R * R).

Variable Q : TCurlyArc -> Prop.

Lemma keeps_ret {A} (x : A) : keeps Q (ret x).
Proof. intros w H. exact H. Qed.

Lemma keeps_bind {A C} (c : M A) (k : A -> M C) :
  keeps Q c -> (forall x, keeps Q (k x)) -> keeps Q (bind c k).
Proof.
  intros Hc Hk w H. unfold bind. specialize (Hc w H).
  destruct (c w) as [x w']. apply Hk. exact Hc.
Qed.

Lemma keeps_get_gPad : keeps Q get_gPad.
Proof. intros w H. exact H. Qed.

Lemma keeps_get_this : keeps Q get_this.
Proof. intros w H. exact H. Qed.

Lemma keeps_get_drag : keeps Q get_drag.
Proof. intros w H. exact H. Qed.

Lemma keeps_call (c : Call) : keeps Q (call c).
Proof. intros w H. exact H. Qed.

Lemma keeps_put_drag (d : DragStatics) : keeps Q (put_drag d).
Proof. intros w H. exact H. Qed.

Lemma keeps_modify_drag f : keeps Q (modify_drag f).
Proof. intros w H. exact H. Qed.

Lemma keeps_when (b : bool) (c : M unit) : keeps Q c -> keeps Q (when b c).
Proof. intros Hc. destruct b; [exact Hc | apply keeps_ret]. Qed.

Lemma keeps_modify_this (f : TCurlyArc -> TCurlyArc) :
  (forall a, Q a -> Q (f a)) -> keeps Q (modify_this f).
Proof. intros Hf w H. cbn. apply Hf. exact H. Qed.

End RadiusInvariant.

Section RadiusNonNegative.

Variable B : option TVirtualPad -> TCurlyArc -> list (R * R).

Create HintDb keeps discriminated.

#[local] Hint Resolve keeps_ret keeps_get_gPad keeps_get_this keeps_get_drag
  keeps_call keeps_put_drag keeps_modify_drag keeps_when : keeps.

Lemma keeps_Build : keeps nonneg_radius (Build B).
Proof.
  intros w H. unfold nonneg_radius in *.
  change (snd (Build B w)) with (exec (Build B) w).
  pose proof (Build_fields B w) as E. unfold fields in E.
  injection E as _ _ -> _ _ _ _ _. exact H.
Qed.

Lemma keeps_move_center (v : R) :
  keeps nonneg_radius (modify_this (set_fX1 v))
  /\ keeps nonneg_radius (modify_this (set_fY1 v)).
Proof. split; apply keeps_modify_this; intros a H; exact H. Qed.

Lemma keeps_SetStartPoint (x y : R) :
  keeps nonneg_radius (SetStartPoint B x y).
Proof.
  unfold SetStartPoint.
  repeat (apply keeps_bind; [|intros _]);
    try apply keeps_move_center; apply keeps_Build.
Qed.

(** [SetRadius] establishes the invariant when it is given an absolute
    value halved, as the interaction code does. *)
Lemma keeps_SetRadius_abs (u : R) :
  keeps nonneg_radius (SetRadius B (TMath.Abs u / 2)).
Proof.
  unfold SetRadius. apply keeps_bind; [|intros _; apply keeps_Build].
  apply keeps_modify_this. intros a _. unfold nonneg_radius, TMath.Abs. cbn.
  pose proof (Rabs_pos u). lra.
Qed.

Lemma keeps_ExecuteEvent (event : EEventType) (px py : Z) :
  keeps nonneg_radius (ExecuteEvent B event px py).
Proof.
  unfold ExecuteEvent. apply keeps_bind; [auto with keeps|]. intros [pad|];
    [|auto with keeps].
  assert (Hhover : keeps nonneg_radius (ExecuteEvent_hover pad px py)).
  { unfold ExecuteEvent_hover.
    apply keeps_bind; [auto with keeps|]. intros a.
    apply keeps_bind; [auto with keeps|]. intros d.
    repeat match goal with
           | |- keeps _ (if ?c then _ else _) => destruct c
           end;
      (apply keeps_bind; [|intros _]); auto with keeps. }
  assert (Hdown : keeps nonneg_radius (ExecuteEvent_down pad)).
  { unfold ExecuteEvent_down.
    apply keeps_bind; [|intros a]; auto with keeps. }
  assert (Hmotion : keeps nonneg_radius (ExecuteEvent_motion B pad event px py)).
  { unfold ExecuteEvent_motion.
    apply keeps_bind; [auto with keeps|]. intros d. cbn zeta.
    apply keeps_bind; [|intros _; apply keeps_bind; [|intros _]];
      auto with keeps.
    - do 2 apply keeps_when.
      apply keeps_bind; [apply keeps_SetStartPoint|intros _].
      apply keeps_bind; [apply keeps_SetRadius_abs|intros _].
      repeat (apply keeps_bind; [|intros _]); auto with keeps.
    - do 2 apply keeps_when.
      apply keeps_bind; [apply keeps_SetStartPoint|intros _].
      repeat (apply keeps_bind; [|intros _]); auto with keeps. }
  assert (Hup : keeps nonneg_radius (ExecuteEvent_up B pad event)).
  { unfold ExecuteEvent_up. cbn zeta.
    apply keeps_bind; [auto with keeps|]. intros d.
    apply keeps_bind; [|intros _; apply keeps_bind; [|intros _]];
      auto using keeps_Build with keeps.
    destruct (OpaqueMoving pad); [auto with keeps|].
    repeat (apply keeps_bind; [|intros _]); try apply keeps_move_center.
    apply keeps_modify_this. intros a _. unfold nonneg_radius, TMath.Abs. cbn.
    match goal with |- 0 <= Rabs ?u / 2 => pose proof (Rabs_pos u) end. lra. }
  destruct event; try assumption; auto with keeps.
  - apply keeps_bind; [exact Hdown | intros _; exact Hhover].
  - apply keeps_bind; [exact Hdown | intros _; exact Hhover].
Qed.

End RadiusNonNegative.

(** ** The radius after a move of an edge, in binary64 *)

Section EdgesInBinary64.

Import PrimFloat.

#[local] Set Warnings "-inexact-float".

(** C8: in binary64 a move of an edge that the guard accepts can store a
    negative radius. The center is at 1 and the radius is 0.3, the double
    nearest to it; the right edge is asked to the abscissa 0.7, again the
    nearest double, which is where the rounded difference [1 - 0.3] puts the
    left edge. The guard [x2 < fX1 - fR1] of line 597 is false, so the move is
    accepted; the assignment of line 599 rounds [x2 - fX1] first and stores
    the radius -2^-55, about -2.8e-17, with the center at 0.7. The top edge
    does the same on a pad of equal ranges, with the ordinate of the center
    left at [0.7 - 0.3]. *)
Theorem accepted_edge_move_stores_negative_radius :
  (0 <=? 0.3)%float = true
  /\ (0.7 <? 1 - 0.3)%float = false
  /\ Binary64.SetBBoxX2 1 0.3 0.7 = (0.7, -0x1p-55)%float
  /\ Binary64.SetBBoxY1 0 1 0 1 1 0.3 0.7
     = (0.39999999999999997, -0x1p-55)%float
  /\ (-0x1p-55 <? 0)%float = true.
Proof.
  repeat split; vm_compute; reflexivity.
Qed.

End EdgesInBinary64.

(** ** Hit testing *)

Section HitTesting.

Variable w : World.
Variable pad : TVirtualPad.
Hypothesis Hpad : gPad w = Some pad.

Lemma pixel_distance_zero (px py : Z) :
  pixel_distance pad (this w) px py = 0
  <-> px = XtoAbsPixel pad (fX1 (this w))
      /\ py = YtoAbsPixel pad (fY1 (this w)).
Proof.
  unfold pixel_distance, TMath.Sqrt.
  set (pxc := XtoAbsPixel pad (fX1 (this w))).
  set (pyc := YtoAbsPixel pad (fY1 (this w))).
  clearbody pxc pyc. split.
  - intros H. apply sqrt_eq_0 in H.
    + apply eq_IZR_R0 in H.
      pose proof (Z.square_nonneg (pxc - px)) as Sx.
      pose proof (Z.square_nonneg (pyc - py)) as Sy.
      assert (Ex : ((pxc - px) * (pxc - px) = 0)%Z) by lia.
      assert (Ey : ((pyc - py) * (pyc - py) = 0)%Z) by lia.
      apply Z.mul_eq_0 in Ex, Ey. lia.
    + apply IZR_le.
      pose proof (Z.square_nonneg (pxc - px)).
      pose proof (Z.square_nonneg (pyc - py)). lia.
  - intros [-> ->]. rewrite !Z.sub_diag. cbn. apply sqrt_0.
Qed.

(** With [phiMax <= phiMin] the test of line 138 cannot succeed: every point
    but the center gets its distance to the circle, whatever its angle. *)
Lemma DistancetoPrimitive_wrap (px py : Z) :
  fPhimax (this w) <= fPhimin (this w) ->
  pixel_distance pad (this w) px py <> 0 ->
  DistancetoPrimitive px py w =
  Distance
    (Num.Int_t_of
       (Rabs (pixel_distance pad (this w) px py
              - IZR (XtoPixel pad (fR1 (this w)) - XtoPixel pad 0)))).
Proof.
  intros Hwrap Hd. unfold DistancetoPrimitive. rewrite Hpad. cbn zeta.
  destruct (Req_dec_T _ 0) as [E|_]; [contradiction|].
  unfold Num.gtb.
  destruct (Num.ltb (fPhimin (this w)) (fPhimax (this w))) eqn:C.
  - apply NumFacts.ltb_true in C. lra.
  - set (phi := pixel_angle pad (this w) px py).
    destruct (Num.ltb (fPhimin (this w)) phi) eqn:C1; [|reflexivity].
    destruct (Num.ltb phi (fPhimax (this w))) eqn:C2; [|reflexivity].
    apply NumFacts.ltb_true in C1, C2. lra.
Qed.

(** With [phiMin < phiMax] the sentinel is returned exactly for the angles
    outside the closed span. *)
Lemma DistancetoPrimitive_span (px py : Z) :
  fPhimin (this w) < fPhimax (this w) ->
  pixel_distance pad (this w) px py <> 0 ->
  let phi := pixel_angle pad (this w) px py in
  (phi < fPhimin (this w) \/ fPhimax (this w) < phi ->
   DistancetoPrimitive px py w = Distance 9999)
  /\ (fPhimin (this w) <= phi <= fPhimax (this w) ->
      DistancetoPrimitive px py w =
      Distance
        (Num.Int_t_of
           (Rabs (pixel_distance pad (this w) px py
                  - IZR (XtoPixel pad (fR1 (this w)) - XtoPixel pad 0))))).
Proof.
  intros Hspan Hd phi. unfold DistancetoPrimitive. rewrite Hpad. cbn zeta.
  destruct (Req_dec_T _ 0) as [E|_]; [contradiction|].
  fold phi. unfold Num.gtb.
  destruct (Num.ltb (fPhimin (this w)) (fPhimax (this w))) eqn:C;
    [|apply NumFacts.ltb_false in C; lra].
  destruct (Num.ltb phi (fPhimin (this w))) eqn:C1;
    destruct (Num.ltb (fPhimax (this w)) phi) eqn:C2; cbn;
    repeat match goal with
           | H : Num.ltb _ _ = true |- _ => apply NumFacts.ltb_true in H
           | H : Num.ltb _ _ = false |- _ => apply NumFacts.ltb_false in H
           end;
    split; intros H; try reflexivity; lra.
Qed.

End HitTesting.

(** C10, as amended: with a host surface attached, the guarded division of
    [DistancetoPrimitive] fails exactly at the pixel that is the center of
    the arc; at every other pixel the divisor is not zero and a distance is
    returned. *)
Theorem DistancetoPrimitive_division (w : World) (pad : TVirtualPad)
        (px py : Z) :
  gPad w = Some pad ->
  DistancetoPrimitive px py w = DivisionByZero
  <-> px = XtoAbsPixel pad (fX1 (this w))
      /\ py = YtoAbsPixel pad (fY1 (this w)).
Proof.
  intros Hpad. rewrite <- (pixel_distance_zero w pad px py).
  unfold DistancetoPrimitive. rewrite Hpad. cbn zeta.
  destruct (Req_dec_T _ 0) as [E|E].
  - split; intros _; [exact E | reflexivity].
  - split; [|contradiction].
    match goal with |- (if ?c then _ else _) = _ -> _ => destruct c end;
      discriminate.
Qed.

(** ** The model on the unit pad *)

Lemma unitPad_X (opaque : bool) (z : Z) :
  XtoAbsPixel (unitPad opaque) (IZR z) = z
  /\ XtoPixel (unitPad opaque) (IZR z) = z.
Proof. split; apply NumFacts.Int_t_of_IZR. Qed.

Lemma unitPad_Y (opaque : bool) (z : Z) :
  YtoAbsPixel (unitPad opaque) (IZR z) = (100 - z)%Z
  /\ YtoPixel (unitPad opaque) (IZR z) = (100 - z)%Z.
Proof.
  split; cbn; rewrite <- minus_IZR; apply NumFacts.Int_t_of_IZR.
Qed.

Lemma rightHalf_distance :
  pixel_distance (unitPad false) (this rightHalf) 40 50 = 10.
Proof.
  unfold pixel_distance. cbn [rightHalf startWorld this rawArc fX1 fY1].
  rewrite (proj1 (unitPad_X false 50)), (proj1 (unitPad_Y false 50)).
  change (IZR ((50 - 40) * (50 - 40)
               + (100 - 50 - 50) * (100 - 50 - 50))) with 100.
  unfold TMath.Sqrt. replace 100 with (10 * 10) by lra.
  apply sqrt_square. lra.
Qed.

Lemma rightHalf_angle :
  pixel_angle (unitPad false) (this rightHalf) 40 50 = 180.
Proof.
  unfold pixel_angle. rewrite rightHalf_distance.
  cbn [rightHalf startWorld this rawArc fX1 fY1].
  rewrite (proj1 (unitPad_X false 50)), (proj1 (unitPad_Y false 50)).
  change (IZR (40 - 50)) with (-10). change (IZR (100 - 50 - 50)) with 0.
  replace (-10 / 10) with (-1) by lra. replace (0 / 10) with 0 by lra.
  unfold TMath.ATan2, TMath.Pi.
  destruct (Req_dec_T (-1) 0) as [E|_]; [lra|].
  destruct (Rlt_dec 0 (-1)) as [E|_]; [lra|].
  destruct (Rle_dec 0 0) as [_|E]; [|lra].
  replace (0 / -1) with 0 by lra. rewrite atan_0.
  pose proof PI_RGT_0 as Hpi.
  destruct (Num.ltb (0 + PI) 0) eqn:C;
    [apply NumFacts.ltb_true in C; lra|].
  field. lra.
Qed.

(** C1: the point at 180 degrees from the center, on the circle, is outside
    the span that runs from 270 degrees through 360 to 90 degrees; the hit
    test nevertheless answers 0, the distance to the circle, and not the
    sentinel 9999. *)
Theorem DistancetoPrimitive_wraparound_hit :
  fPhimax (this rightHalf) < fPhimin (this rightHalf)
  /\ pixel_angle (unitPad false) (this rightHalf) 40 50 = 180
  /\ DistancetoPrimitive 40 50 rightHalf = Distance 0.
Proof.
  split; [cbn; lra|]. split; [apply rightHalf_angle|].
  rewrite (DistancetoPrimitive_wrap rightHalf (unitPad false) eq_refl).
  - rewrite rightHalf_distance.
    cbn [rightHalf startWorld this rawArc fR1].
    rewrite (proj2 (unitPad_X false 10)), (proj2 (unitPad_X false 0)).
    change (IZR (10 - 0)) with 10. replace (10 - 10) with 0 by lra.
    rewrite Rabs_R0. f_equal. apply (NumFacts.Int_t_of_IZR 0).
  - cbn. lra.
  - rewrite rightHalf_distance. lra.
Qed.

(** Counterexample to C10 as stated: at the pixel of the center the divisor
    is zero. *)
Lemma DistancetoPrimitive_at_center :
  gPad upperHalf = Some (unitPad false)
  /\ DistancetoPrimitive 50 50 upperHalf = DivisionByZero.
Proof.
  split; [reflexivity|].
  unfold DistancetoPrimitive. cbn [upperHalf startWorld gPad]. cbn zeta.
  destruct (Req_dec_T _ 0) as [_|E]; [reflexivity|].
  exfalso. apply E.
  apply (pixel_distance_zero upperHalf (unitPad false)).
  cbn [upperHalf startWorld this rawArc fX1 fY1].
  rewrite (proj1 (unitPad_X false 50)), (proj1 (unitPad_Y false 50)).
  split; reflexivity.
Qed.

(** ** Construction, defaults and serialization *)

Lemma fields_eq (a : TCurlyArc) (x y r p q l m : R) (c : bool) :
  fields a = mkFields (x, y) r p q l m c ->
  fX1 a = x /\ fY1 a = y /\ fR1 a = r /\ fPhimin a = p /\ fPhimax a = q
  /\ fWaveLength a = l /\ fAmplitude a = m /\ fIsCurly a = c.
Proof.
  intros E.
  pose proof (f_equal center E) as Ec. cbn in Ec.
  pose proof (f_equal radius E). pose proof (f_equal phiMin E).
  pose proof (f_equal phiMax E). pose proof (f_equal waveLength E).
  pose proof (f_equal amplitude E). pose proof (f_equal isCurly E).
  pose proof (f_equal fst Ec). pose proof (f_equal snd Ec).
  repeat split; assumption.
Qed.

Section Construction.

Variable B : option TVirtualPad -> TCurlyArc -> list (R * R).
Variable shown parsed : R -> R.

(** The constructor of lines 58-70 takes the center, the radius, the span
    and the two wave parameters from its arguments, and the mode from the
    class default. *)
Lemma TCurlyArc_new_fields (w : World) (x1 y1 rad phimin phimax wl amp : R) :
  fields (this (exec (TCurlyArc_new B x1 y1 rad phimin phimax wl amp) w)) =
  mkFields (x1, y1) rad phimin phimax wl amp (fgDefaultIsCurly w).
Proof.
  unfold TCurlyArc_new. run_M.
  match goal with |- context [Build B ?v] =>
    change (snd (Build B v)) with (exec (Build B) v) end.
  rewrite Build_fields. reflexivity.
Qed.

Lemma SetWavy_fields (w : World) :
  fields (this (exec (SetWavy B) w)) =
  fields (set_fIsCurly false (this w)).
Proof.
  unfold SetWavy. run_M.
  match goal with |- context [Build B ?v] =>
    change (snd (Build B v)) with (exec (Build B) v) end.
  rewrite Build_fields. reflexivity.
Qed.

(** What the scripting layer reads in the text of [SavePrimitive]: every
    number has gone through the stream and through the reader. *)
Lemma parse_SavePrimitive (classSaved : bool) (attributes : list string)
      (w : World) :
  let a := this w in
  let back := fun d => parsed (shown d) in
  parse parsed (SavePrimitive shown classSaved attributes w) =
  Some (NewCurlyArc (back (fX1 a)) (back (fY1 a)) (back (fR1 a))
                    (back (fPhimin a)) (back (fPhimax a))
                    (back (fWaveLength a)) (back (fAmplitude a))
          :: (if fIsCurly a then [] else [SetWavyStmt])
          ++ [LineAttributesStmt; DrawStmt]).
Proof.
  unfold SavePrimitive, parse.
  destruct classSaved, (fIsCurly (this w)); reflexivity.
Qed.

Lemma run_cons (st : Stmt) (script : list Stmt) (w : World) :
  exec (run B (st :: script)) w = exec (run B script) (exec (run_stmt B st) w).
Proof.
  unfold exec. cbn [run]. unfold bind.
  destruct (run_stmt B st w) as [[] w1]. reflexivity.
Qed.

Lemma run_nil (w : World) : exec (run B []) w = w.
Proof. reflexivity. Qed.

Lemma exec_ret (w : World) : exec (ret tt) w = w.
Proof. reflexivity. Qed.

(** The fields after the re-execution: each number as it comes back from
    its decimal, and the mode curly only when the arc was curly and the
    class default is curly. *)
Lemma replay_SavePrimitive (classSaved : bool) (attributes : list string)
      (w w0 : World) :
  let a := this w in
  let back := fun d => parsed (shown d) in
  exists w' : World,
    replay B parsed (SavePrimitive shown classSaved attributes w) w0
    = Some w'
    /\ fields (this w') =
       mkFields (back (fX1 a), back (fY1 a)) (back (fR1 a))
                (back (fPhimin a)) (back (fPhimax a))
                (back (fWaveLength a)) (back (fAmplitude a))
                (fIsCurly a && fgDefaultIsCurly w0).
Proof.
  intros a back. unfold replay. rewrite parse_SavePrimitive.
  fold a. cbn zeta. fold back.
  eexists. split; [reflexivity|].
  rewrite run_cons.
  pose proof (TCurlyArc_new_fields w0 (back (fX1 a)) (back (fY1 a))
                (back (fR1 a)) (back (fPhimin a)) (back (fPhimax a))
                (back (fWaveLength a)) (back (fAmplitude a))) as Hnew.
  cbn [run_stmt].
  set (w1 := exec (TCurlyArc_new B (back (fX1 a)) (back (fY1 a))
                     (back (fR1 a)) (back (fPhimin a)) (back (fPhimax a))
                     (back (fWaveLength a)) (back (fAmplitude a))) w0) in *.
  destruct (fIsCurly a) eqn:Hc; cbn [app]; rewrite !run_cons; cbn [run_stmt].
  - change (fields (this w1) = mkFields (back (fX1 a), back (fY1 a))
              (back (fR1 a)) (back (fPhimin a)) (back (fPhimax a))
              (back (fWaveLength a)) (back (fAmplitude a))
              (fgDefaultIsCurly w0)).
    exact Hnew.
  - change (fields (this (exec (SetWavy B) w1)) =
            mkFields (back (fX1 a), back (fY1 a))
              (back (fR1 a)) (back (fPhimin a)) (back (fPhimax a))
              (back (fWaveLength a)) (back (fAmplitude a)) false).
    rewrite SetWavy_fields. apply fields_eq in Hnew.
    destruct Hnew as (E1 & E2 & E3 & E4 & E5 & E6 & E7 & _).
    unfold fields. cbn. rewrite E1, E2, E3, E4, E5, E6, E7. reflexivity.
Qed.

(** C5, as amended: the text of [SavePrimitive] is a construction call on
    the seven numeric fields in the order center x, center y, radius, phiMin,
    phiMax, waveLength, amplitude, followed by the wavy-mode toggle exactly
    when the arc is not curly. Re-executed, it yields an arc with the same
    fields, the mode included, provided that the arc is wavy or the class
    default [fgDefaultIsCurly] is true at that time, and that each of the
    seven numbers comes back from the decimal written for it as the number
    it was. *)
Theorem SavePrimitive_roundtrip (classSaved : bool)
        (attributes : list string) (w w0 : World) :
  let a := this w in
  fIsCurly a = false \/ fgDefaultIsCurly w0 = true ->
  Forall (fun d => parsed (shown d) = d)
         [fX1 a; fY1 a; fR1 a; fPhimin a; fPhimax a;
          fWaveLength a; fAmplitude a] ->
  parse parsed (SavePrimitive shown classSaved attributes w) =
    Some (NewCurlyArc (fX1 a) (fY1 a) (fR1 a) (fPhimin a) (fPhimax a)
                      (fWaveLength a) (fAmplitude a)
            :: (if fIsCurly a then [] else [SetWavyStmt])
            ++ [LineAttributesStmt; DrawStmt])
  /\ exists w' : World,
       replay B parsed (SavePrimitive shown classSaved attributes w) w0
       = Some w'
       /\ fields (this w') = fields a.
Proof.
  intros a Hmode Hdigits.
  rewrite !Forall_cons in Hdigits.
  destruct Hdigits as (D1 & D2 & D3 & D4 & D5 & D6 & D7 & _).
  split.
  - rewrite parse_SavePrimitive. fold a. cbn zeta.
    rewrite D1, D2, D3, D4, D5, D6, D7. reflexivity.
  - destruct (replay_SavePrimitive classSaved attributes w w0)
      as (w' & Hr & Hf).
    exists w'. split; [exact Hr|]. rewrite Hf. fold a.
    rewrite D1, D2, D3, D4, D5, D6, D7. unfold fields. f_equal.
    destruct Hmode as [-> | ->]; [reflexivity|]. apply andb_true_r.
Qed.

(** Neither condition can be dropped: when the re-executed text gives back
    the fields of the arc, the arc is wavy or the class default is curly,
    and each of the seven numbers has come back from its decimal. *)
Lemma SavePrimitive_roundtrip_conditions (classSaved : bool)
      (attributes : list string) (w w0 w' : World) :
  let a := this w in
  replay B parsed (SavePrimitive shown classSaved attributes w) w0
  = Some w' ->
  fields (this w') = fields a ->
  (fIsCurly a = false \/ fgDefaultIsCurly w0 = true)
  /\ Forall (fun d => parsed (shown d) = d)
            [fX1 a; fY1 a; fR1 a; fPhimin a; fPhimax a;
             fWaveLength a; fAmplitude a].
Proof.
  intros a Hr Hf.
  destruct (replay_SavePrimitive classSaved attributes w w0)
    as (w'' & Hr' & Hf').
  rewrite Hr in Hr'. injection Hr' as <-.
  rewrite Hf in Hf'. fold a in Hf'. apply fields_eq in Hf'.
  destruct Hf' as (E1 & E2 & E3 & E4 & E5 & E6 & E7 & E8).
  split.
  - destruct (fIsCurly a); [right|left; reflexivity].
    symmetry. exact E8.
  - repeat constructor; symmetry; assumption.
Qed.

(** A curly arc re-executed under a wavy default comes back wavy. *)
Lemma SavePrimitive_roundtrip_fails (classSaved : bool)
      (attributes : list string) (w w0 : World) :
  fIsCurly (this w) = true -> fgDefaultIsCurly w0 = false ->
  exists w' : World,
    replay B parsed (SavePrimitive shown classSaved attributes w) w0
    = Some w'
    /\ fIsCurly (this w') = false.
Proof.
  intros Hc Hdef.
  destruct (replay_SavePrimitive classSaved attributes w w0)
    as (w' & Hr & Hf).
  exists w'. split; [exact Hr|].
  apply (f_equal isCurly) in Hf. cbn [isCurly fields] in Hf.
  rewrite Hf, Hc, Hdef. reflexivity.
Qed.

(** C2: after [SetDefaultAmplitude v], an arc constructed without the
    wave arguments has amplitude [v]; its wave length is the class default
    wave length and its mode the class default mode. *)
Theorem defaults_seed_new_arcs (w : World) (v x1 y1 rad phimin phimax : R) :
  let w' :=
    exec (SetDefaultAmplitude v ;;
          TCurlyArc_new_default B x1 y1 rad phimin phimax) w in
  fAmplitude (this w') = v
  /\ fWaveLength (this w') = fgDefaultWaveLength w
  /\ fIsCurly (this w') = fgDefaultIsCurly w
  /\ eval (SetDefaultAmplitude v ;; GetDefaultAmplitude) w = v.
Proof.
  cbn zeta. unfold TCurlyArc_new_default, SetDefaultAmplitude,
    GetDefaultWaveLength, GetDefaultAmplitude. run_M.
  match goal with |- context [TCurlyArc_new B ?a ?b ?c ?d ?e ?f ?g ?v] =>
    pose proof (TCurlyArc_new_fields v a b c d e f g) as E;
    unfold exec in E; destruct (TCurlyArc_new B a b c d e f g v) as [[] w1]
  end.
  cbn in *. unfold fields in E. injection E as _ _ _ _ _ -> -> ->.
  repeat split; reflexivity.
Qed.

End Construction.

Section ConstructionFrame.

Variable B : option TVirtualPad -> TCurlyArc -> list (R * R).

Lemma TCurlyArc_new_frame (w : World) (x1 y1 rad phimin phimax wl amp : R) :
  let w' := exec (TCurlyArc_new B x1 y1 rad phimin phimax wl amp) w in
  gPad w' = gPad w /\ builds (trace w') = S (builds (trace w)).
Proof.
  unfold TCurlyArc_new. run_M.
  match goal with |- context [Build B ?v] =>
    change (snd (Build B v)) with (exec (Build B) v);
    pose proof (Build_globals B v) as G; pose proof (Build_builds B v) as N
  end.
  cbn zeta in G. destruct G as (G & _). split; assumption.
Qed.

(** The constructor never reads the class defaults of the wave length and of
    the amplitude: only its arguments decide those two fields. *)
Lemma TCurlyArc_new_ignores_wave_defaults
      (w : World) (u v x1 y1 rad phimin phimax wl amp : R) :
  fields (this (exec (SetDefaultWaveLength u ;; SetDefaultAmplitude v ;;
                      TCurlyArc_new B x1 y1 rad phimin phimax wl amp) w)) =
  fields (this (exec (TCurlyArc_new B x1 y1 rad phimin phimax wl amp) w)).
Proof.
  rewrite TCurlyArc_new_fields.
  unfold SetDefaultWaveLength, SetDefaultAmplitude. run_M.
  match goal with |- context [TCurlyArc_new B ?a ?b ?c ?d ?e ?f ?g ?v] =>
    pose proof (TCurlyArc_new_fields B v a b c d e f g) as E;
    unfold exec in E; destruct (TCurlyArc_new B a b c d e f g v) as [[] w1]
  end.
  exact E.
Qed.

End ConstructionFrame.

(** C3: on the constructed upper half circle, [SetBBoxX1 30] is accepted and
    moves the radius from 10 to 15 and the center abscissa from 50 to 45,
    but no request reaches the waveform builder and the polyline is the one
    built for the old geometry: the edge setter returns without a rebuild. *)
Theorem SetBBoxX1_leaves_polyline_stale :
  let w := exec (SetBBoxX1 30) builtUpperHalf in
  (fR1 (this builtUpperHalf), fX1 (this builtUpperHalf)) = (10, 50)
  /\ (fR1 (this w), fX1 (this w)) = (15, 45)
  /\ builds (trace builtUpperHalf) = 1%nat
  /\ builds (trace w) = 1%nat
  /\ trace w = trace builtUpperHalf
  /\ fX (this w) = fX (this builtUpperHalf)
  /\ fY (this w) = fY (this builtUpperHalf).
Proof.
  intros w.
  assert (F : fields (this builtUpperHalf) =
              mkFields (50, 50) 10 0 180 0.02 0.01 true)
    by apply TCurlyArc_new_fields.
  assert (G : gPad builtUpperHalf = Some (unitPad false)
              /\ builds (trace builtUpperHalf) = 1%nat)
    by apply (TCurlyArc_new_frame StraightBuilder
                (startWorld (Some (unitPad false))
                            (rawArc 0 0 0 0 0 0 0 true))).
  destruct G as [Hpad Hn].
  apply fields_eq in F. destruct F as (Fx & Fy & Fr & _).
  destruct (edge_setters_frame builtUpperHalf 30 SetBBoxX1)
    as (Ht & _ & Hx & Hy); [left; reflexivity|]. fold w in Ht, Hx, Hy.
  assert (Hw : fR1 (this w) = 15 /\ fX1 (this w) = 45).
  { subst w. rewrite (SetBBoxX1_this builtUpperHalf (unitPad false) Hpad).
    cbn zeta. rewrite Fx, Fr.
    change (PixeltoX (unitPad false) 30) with 30.
    case_cmp; [lra|]. cbn. split; lra. }
  destruct Hw as [Hr Hc].
  rewrite Fr, Fx, Hr, Hc, Ht, Hn. repeat split; assumption.
Qed.

(** Counterexample to C5 as stated: a curly arc saved and re-executed after
    [SetDefaultIsCurly(kFALSE)] comes back wavy, whatever its numbers are. *)
Lemma SavePrimitive_roundtrip_loses_curly :
  let w := exec (SetDefaultIsCurly false) upperHalf in
  fIsCurly (this w) = true
  /\ exists w' : World,
       replay StraightBuilder asDenoted
              (SavePrimitive sixDigits false [] w) w = Some w'
       /\ fIsCurly (this w') = false
       /\ fields (this w') <> fields (this w).
Proof.
  intros w. split; [reflexivity|].
  destruct (SavePrimitive_roundtrip_fails StraightBuilder sixDigits asDenoted
              false [] w w)
    as (w' & Hr & Hc); [reflexivity | reflexivity |].
  exists w'. split; [exact Hr|]. split; [exact Hc|].
  intros E. apply (f_equal isCurly) in E. cbn [isCurly fields] in E.
  rewrite Hc in E. discriminate E.
Qed.

(** And a wavy arc whose center has seven digits comes back, through a
    stream of six, with another center. *)
Lemma SavePrimitive_roundtrip_loses_digits :
  let w := startWorld (Some (unitPad false))
                      (rawArc 0.1234567 0 10 0 180 2 1 false) in
  exists w' : World,
    replay StraightBuilder asDenoted
           (SavePrimitive sixDigits false [] w) w = Some w'
    /\ fX1 (this w') = 0.123457
    /\ fields (this w') <> fields (this w).
Proof.
  intros w.
  destruct (replay_SavePrimitive StraightBuilder sixDigits asDenoted
              false [] w w) as (w' & Hr & Hf).
  apply fields_eq in Hf. destruct Hf as (E1 & _).
  assert (Ex : fX1 (this w') = 0.123457).
  { rewrite E1. unfold asDenoted. exact sixDigits_of_seven. }
  exists w'. split; [exact Hr|]. split; [exact Ex|].
  intros E. apply (f_equal center) in E. apply (f_equal fst) in E.
  cbn [center fields fst] in E. rewrite Ex in E.
  change (fX1 (this w)) with 0.1234567 in E. lra.
Qed.

(** ** The statements at concrete inputs *)

Lemma wavyUpperHalf_digits :
  let a := this wavyUpperHalf in
  Forall (fun d => asDenoted (sixDigits d) = d)
         [fX1 a; fY1 a; fR1 a; fPhimin a; fPhimax a;
          fWaveLength a; fAmplitude a].
Proof.
  unfold asDenoted.
  repeat constructor;
    [exact sixDigits_0 | exact sixDigits_0 | exact sixDigits_10
    | exact sixDigits_0 | exact sixDigits_180 | exact sixDigits_2
    | exact sixDigits_1].
Qed.

Lemma SavePrimitive_roundtrip_witness :
  let w := wavyUpperHalf in
  let a := this w in
  (fIsCurly a = false \/ fgDefaultIsCurly w = true)
  /\ Forall (fun d => asDenoted (sixDigits d) = d)
            [fX1 a; fY1 a; fR1 a; fPhimin a; fPhimax a;
             fWaveLength a; fAmplitude a]
  /\ parse asDenoted (SavePrimitive sixDigits false [] w) =
       Some (NewCurlyArc (fX1 a) (fY1 a) (fR1 a) (fPhimin a) (fPhimax a)
                         (fWaveLength a) (fAmplitude a)
               :: (if fIsCurly a then [] else [SetWavyStmt])
               ++ [LineAttributesStmt; DrawStmt])
  /\ exists w' : World,
       replay StraightBuilder asDenoted
              (SavePrimitive sixDigits false [] w) w = Some w'
       /\ fields (this w') = fields a.
Proof.
  intros w a.
  split; [left; reflexivity|].
  split; [exact wavyUpperHalf_digits|].
  exact (SavePrimitive_roundtrip StraightBuilder sixDigits asDenoted
           false [] w w (or_introl eq_refl) wavyUpperHalf_digits).
Defined.

Lemma bbox_roundtrip_X_witness :
  gPad upperHalf = Some (unitPad false)
  /\ (forall v : R,
        Rabs (PixeltoX (unitPad false) (XtoPixel (unitPad false) v) - v) <= 1)
  /\ (let w1 := exec (SetBBoxX1 (Rectangle_t.fX (GetBBox upperHalf)))
                     upperHalf in
      let box := GetBBox w1 in
      let w2 :=
        exec (SetBBoxX2 (Rectangle_t.fX box + Rectangle_t.fWidth box)) w1 in
      Rabs (fR1 (this w2) - fR1 (this upperHalf)) <= 1
      /\ Rabs (fX1 (this w2) - fX1 (this upperHalf)) <= 1
      /\ fY1 (this w2) = fY1 (this upperHalf)).
Proof.
  split; [reflexivity|]. split.
  - intros v. apply NumFacts.Int_t_of_error.
  - apply (bbox_roundtrip_X upperHalf (unitPad false) 1).
    + reflexivity.
    + intros v. apply NumFacts.Int_t_of_error.
Defined.

Lemma DistancetoPrimitive_division_witness :
  gPad rightHalf = Some (unitPad false)
  /\ (DistancetoPrimitive 40 50 rightHalf = DivisionByZero
      <-> 40%Z = XtoAbsPixel (unitPad false) (fX1 (this rightHalf))
          /\ 50%Z = YtoAbsPixel (unitPad false) (fY1 (this rightHalf))).
Proof.
  split.
  - reflexivity.
  - apply (DistancetoPrimitive_division rightHalf (unitPad false) 40 50).
    reflexivity.
Defined.

(** ** Further properties: hosts, setters, construction, serialization *)

Section Lifecycle.

Variable B : option TVirtualPad -> TCurlyArc -> list (R * R).

Lemma modify_then_Build (f : TCurlyArc -> TCurlyArc) (w : World) :
  exec (modify_this f ;; Build B) w = exec (Build B) (with_this (f (this w)) w).
Proof. reflexivity. Qed.

Lemma Build_trace (w : World) :
  trace (exec (Build B) w)
  = trace w ++ CurlyLine_Build (segment_of (this w)) :: pad_calls (gPad w).
Proof. unfold exec. rewrite Build_eq. reflexivity. Qed.

(** X1: without a host surface the bounding box is the zero rectangle, its
    center the origin and the hit distance the sentinel 9999; the setters of
    the bounding box and the mouse events return without touching anything;
    a rebuild still runs, and notifies no pad. *)
Theorem without_host_nothing_moves (w : World) (p : TPoint.t) (x : Z)
        (event : EEventType) (px py : Z) :
  gPad w = None ->
  GetBBox w = Rectangle_t.mk 0 0 0 0
  /\ GetBBoxCenter w = TPoint.mk 0 0
  /\ DistancetoPrimitive px py w = Distance 9999
  /\ exec (SetBBoxCenter B p) w = w
  /\ exec (SetBBoxCenterX B x) w = w
  /\ exec (SetBBoxCenterY B x) w = w
  /\ exec (SetBBoxX1 x) w = w
  /\ exec (SetBBoxX2 x) w = w
  /\ exec (SetBBoxY1 x) w = w
  /\ exec (SetBBoxY2 x) w = w
  /\ exec (ExecuteEvent B event px py) w = w
  /\ trace (exec (Build B) w)
     = trace w ++ [CurlyLine_Build (segment_of (this w))].
Proof.
  intros H.
  unfold GetBBox, GetBBoxCenter, DistancetoPrimitive, SetBBoxCenter,
    SetBBoxCenterX, SetBBoxCenterY, SetBBoxX1, SetBBoxX2, SetBBoxY1,
    SetBBoxY2, ExecuteEvent.
  rewrite Build_trace. unfold pad_calls. run_M. rewrite H.
  repeat split; reflexivity.
Qed.

(** X2: each of [SetCenter], [SetRadius], [SetPhimin], [SetPhimax] writes
    the field it names, whatever the value (a negative radius is taken as it
    is), leaves the other fields alone, and asks the waveform builder once
    for the segment of the updated arc. *)
Theorem setters_write_then_rebuild (w : World) (x y : R) :
  let a := this w in
  (fields (this (exec (SetCenter B x y) w))
   = mkFields (x, y) (fR1 a) (fPhimin a) (fPhimax a)
              (fWaveLength a) (fAmplitude a) (fIsCurly a)
   /\ trace (exec (SetCenter B x y) w)
      = trace w ++ CurlyLine_Build (segment_of (set_fY1 y (set_fX1 x a)))
                :: pad_calls (gPad w))
  /\ (fields (this (exec (SetRadius B x) w))
      = mkFields (fX1 a, fY1 a) x (fPhimin a) (fPhimax a)
                 (fWaveLength a) (fAmplitude a) (fIsCurly a)
      /\ trace (exec (SetRadius B x) w)
         = trace w ++ CurlyLine_Build (segment_of (set_fR1 x a))
                   :: pad_calls (gPad w))
  /\ (fields (this (exec (SetPhimin B x) w))
      = mkFields (fX1 a, fY1 a) (fR1 a) x (fPhimax a)
                 (fWaveLength a) (fAmplitude a) (fIsCurly a)
      /\ trace (exec (SetPhimin B x) w)
         = trace w ++ CurlyLine_Build (segment_of (set_fPhimin x a))
                   :: pad_calls (gPad w))
  /\ (fields (this (exec (SetPhimax B x) w))
      = mkFields (fX1 a, fY1 a) (fR1 a) (fPhimin a) x
                 (fWaveLength a) (fAmplitude a) (fIsCurly a)
      /\ trace (exec (SetPhimax B x) w)
         = trace w ++ CurlyLine_Build (segment_of (set_fPhimax x a))
                   :: pad_calls (gPad w)).
Proof.
  intros a.
  assert (Hc : exec (SetCenter B x y) w
               = exec (Build B) (with_this (set_fY1 y (set_fX1 x a)) w))
    by reflexivity.
  unfold SetRadius, SetPhimin, SetPhimax.
  rewrite Hc, !modify_then_Build, !Build_fields, !Build_trace.
  repeat split; reflexivity.
Qed.

(** X3: the constructor with explicit arguments takes the center, radius,
    span, wave length and amplitude from its arguments and the mode from
    [fgDefaultIsCurly]; the class defaults of wave length and amplitude,
    whatever they have been set to, play no part; the polyline is built
    once. *)
Theorem constructor_takes_its_arguments
        (w : World) (u v x1 y1 rad phimin phimax wl amp : R) :
  let w' :=
    exec (SetDefaultWaveLength u ;; SetDefaultAmplitude v ;;
          TCurlyArc_new B x1 y1 rad phimin phimax wl amp) w in
  fields (this w')
  = mkFields (x1, y1) rad phimin phimax wl amp (fgDefaultIsCurly w)
  /\ builds (trace w') = S (builds (trace w))
  /\ fgDefaultWaveLength w' = u /\ fgDefaultAmplitude w' = v.
Proof.
  cbn zeta.
  set (w0 := mkWorld (gPad w) (this w) u v (fgDefaultIsCurly w) (drag w)
                     (trace w)).
  assert (E : exec (SetDefaultWaveLength u ;; SetDefaultAmplitude v ;;
                    TCurlyArc_new B x1 y1 rad phimin phimax wl amp) w
              = exec (TCurlyArc_new B x1 y1 rad phimin phimax wl amp) w0)
    by reflexivity.
  rewrite E. rewrite TCurlyArc_new_fields.
  pose proof (TCurlyArc_new_frame B w0 x1 y1 rad phimin phimax wl amp) as F.
  cbn zeta in F. destruct F as [_ F].
  split; [reflexivity|]. split; [exact F|].
  unfold TCurlyArc_new. run_M.
  match goal with |- context [Build B ?v0] =>
    change (snd (Build B v0)) with (exec (Build B) v0);
    pose proof (Build_globals B v0) as G end.
  cbn zeta in G. destruct G as (_ & -> & -> & _). split; reflexivity.
Qed.

End Lifecycle.

(** ** Further properties: hit testing *)

Lemma Int_t_of_nonneg (d : R) : 0 <= d -> (0 <= Num.Int_t_of d)%Z.
Proof.
  intros H. unfold Num.Int_t_of. destruct (Rle_dec 0 d) as [_|N]; [|lra].
  pose proof (base_Int_part d) as [_ Hb].
  assert (Hlt : IZR (-1) < IZR (Int_part d)) by lra.
  apply lt_IZR in Hlt. lia.
Qed.

Lemma ATan2_range (y x : R) : - PI < TMath.ATan2 y x <= PI.
Proof.
  pose proof PI_RGT_0 as Hpi. unfold TMath.ATan2.
  destruct (Req_dec_T x 0) as [Ex|Nx].
  - destruct (Req_dec_T y 0); [lra|]. destruct (Rlt_dec 0 y); lra.
  - pose proof (atan_bound (y / x)) as Hb.
    destruct (Rlt_dec 0 x) as [Px|Npx]; [lra|].
    assert (Hx : / x < 0) by (apply Rinv_neg; lra).
    destruct (Rle_dec 0 y) as [Py|Ny].
    + assert (Hq : y / x <= 0) by (unfold Rdiv; nra).
      assert (atan (y / x) <= 0).
      { destruct Hq as [Hq|Hq].
        - apply atan_increasing in Hq. rewrite atan_0 in Hq. lra.
        - rewrite Hq, atan_0. lra. }
      lra.
    + assert (Hq : 0 < y / x) by (unfold Rdiv; nra).
      apply atan_increasing in Hq. rewrite atan_0 in Hq. lra.
Qed.

(** X5: the angle that the hit test compares with the span is a number of
    degrees in [0, 360), for every pad, arc and pixel other than the pixel
    of the center. *)
Theorem pixel_angle_range (pad : TVirtualPad) (a : TCurlyArc) (px py : Z) :
  pixel_distance pad a px py <> 0 ->
  0 <= pixel_angle pad a px py < 360.
Proof.
  intros _. unfold pixel_angle. cbn zeta.
  match goal with |- context [TMath.ATan2 ?y ?x] =>
    pose proof (ATan2_range y x) as Hr; set (phi0 := TMath.ATan2 y x) in * end.
  pose proof PI_RGT_0 as Hpi. unfold TMath.Pi.
  set (phi := if Num.ltb phi0 0 then phi0 + 2 * PI else phi0).
  assert (Hphi : 0 <= phi < 2 * PI).
  { subst phi. destruct (Num.ltb phi0 0) eqn:C.
    - apply NumFacts.ltb_true in C. lra.
    - apply NumFacts.ltb_false in C. lra. }
  clearbody phi. clear Hr phi0.
  set (q := phi / PI).
  assert (Eq : phi = q * PI) by (subst q; field; lra).
  replace (phi * 180 / PI) with (q * 180) by (subst q; field; lra).
  assert (0 <= q < 2) by (split; nra). lra.
Qed.

(** X6: the hit test never answers a negative distance. *)
Theorem hit_distance_not_negative (px py : Z) (w : World) :
  match DistancetoPrimitive px py w with
  | Distance d => (0 <= d)%Z
  | DivisionByZero => True
  end.
Proof.
  unfold DistancetoPrimitive. destruct (gPad w) as [pad|]; [|lia].
  cbn zeta. destruct (Req_dec_T _ 0); [exact I|].
  match goal with |- context [if ?c then Distance 9999 else _] =>
    destruct c end; [lia|].
  apply Int_t_of_nonneg. apply Rabs_pos.
Qed.

(** X7: for a span with [phiMin < phiMax] and a pixel that is not the
    center, the hit test answers the sentinel 9999 when the angle of the
    pixel is outside [phiMin, phiMax], and otherwise the truncated distance
    between the pixel and the circle of the pixel radius. *)
Theorem hit_test_on_plain_span (w : World) (pad : TVirtualPad) (px py : Z) :
  gPad w = Some pad ->
  fPhimin (this w) < fPhimax (this w) ->
  pixel_distance pad (this w) px py <> 0 ->
  let phi := pixel_angle pad (this w) px py in
  ((phi < fPhimin (this w) \/ fPhimax (this w) < phi)
   /\ DistancetoPrimitive px py w = Distance 9999)
  \/ (fPhimin (this w) <= phi <= fPhimax (this w)
      /\ DistancetoPrimitive px py w =
         Distance
           (Num.Int_t_of
              (Rabs (pixel_distance pad (this w) px py
                     - IZR (XtoPixel pad (fR1 (this w))
                            - XtoPixel pad 0))))).
Proof.
  intros Hpad Hspan Hd phi.
  destruct (DistancetoPrimitive_span w pad Hpad px py Hspan Hd) as [Ho Hi].
  fold phi in Ho, Hi.
  destruct (Rlt_dec phi (fPhimin (this w))) as [L|NL].
  - left. split; [left; exact L | apply Ho; left; exact L].
  - destruct (Rlt_dec (fPhimax (this w)) phi) as [G|NG].
    + left. split; [right; exact G | apply Ho; right; exact G].
    + right. assert (fPhimin (this w) <= phi <= fPhimax (this w)) by lra.
      split; [assumption | apply Hi; assumption].
Qed.

Lemma upperHalf_off_center :
  pixel_distance (unitPad false) (this upperHalf) 40 50 <> 0.
Proof.
  intros E. apply (pixel_distance_zero upperHalf (unitPad false)) in E.
  destruct E as [E _]. revert E.
  cbn [upperHalf startWorld this rawArc fX1].
  rewrite (proj1 (unitPad_X false 50)). discriminate.
Qed.

Lemma hit_test_on_plain_span_witness :
  let w := upperHalf in
  let pad := unitPad false in
  gPad w = Some pad
  /\ fPhimin (this w) < fPhimax (this w)
  /\ pixel_distance pad (this w) 40 50 <> 0
  /\ (let phi := pixel_angle pad (this w) 40 50 in
      ((phi < fPhimin (this w) \/ fPhimax (this w) < phi)
       /\ DistancetoPrimitive 40 50 w = Distance 9999)
      \/ (fPhimin (this w) <= phi <= fPhimax (this w)
          /\ DistancetoPrimitive 40 50 w =
             Distance
               (Num.Int_t_of
                  (Rabs (pixel_distance pad (this w) 40 50
                         - IZR (XtoPixel pad (fR1 (this w))
                                - XtoPixel pad 0)))))).
Proof.
  intros w pad.
  assert (Hs : fPhimin (this w) < fPhimax (this w)).
  { change (0 < 180). lra. }
  split; [reflexivity|]. split; [exact Hs|].
  split; [exact upperHalf_off_center|].
  exact (hit_test_on_plain_span w pad 40 50 eq_refl Hs upperHalf_off_center).
Defined.

(** ** Further properties: the edges of the bounding box *)

Lemma edge_setters_shape (w : World) (x : Z) :
  shape (this (exec (SetBBoxX1 x) w)) = shape (this w)
  /\ shape (this (exec (SetBBoxX2 x) w)) = shape (this w)
  /\ shape (this (exec (SetBBoxY1 x) w)) = shape (this w)
  /\ shape (this (exec (SetBBoxY2 x) w)) = shape (this w).
Proof.
  unfold SetBBoxX1, SetBBoxX2, SetBBoxY1, SetBBoxY2.
  repeat split; run_M; destruct (gPad w) as [pad|]; run_M;
    try reflexivity; case_cmp; reflexivity.
Qed.

(** X12: on a pad that sends every pixel to a point and back to the same
    pixel, the center read by [GetBBoxCenter] after [SetBBoxCenter p] is
    [p]; the radius, the span, the wave parameters and the mode are those
    of before, and the polyline has been rebuilt once. [SetBBoxCenterX] and
    [SetBBoxCenterY] set one pixel coordinate of the center read back and
    leave the other. *)
Theorem center_set_then_get (B : option TVirtualPad -> TCurlyArc -> list (R * R))
        (w : World) (pad : TVirtualPad) (p : TPoint.t) :
  gPad w = Some pad ->
  (forall q : Z, XtoPixel pad (PixeltoX pad q) = q) ->
  (forall q : Z, YtoPixel pad (PixeltoY pad (q - VtoPixel pad 0)) = q) ->
  let w' := exec (SetBBoxCenter B p) w in
  GetBBoxCenter w' = p
  /\ fR1 (this w') = fR1 (this w)
  /\ shape (this w') = shape (this w)
  /\ builds (trace w') = S (builds (trace w))
  /\ GetBBoxCenter (exec (SetBBoxCenterX B (TPoint.GetX p)) w)
     = TPoint.mk (TPoint.GetX p) (TPoint.GetY (GetBBoxCenter w))
  /\ GetBBoxCenter (exec (SetBBoxCenterY B (TPoint.GetY p)) w)
     = TPoint.mk (TPoint.GetX (GetBBoxCenter w)) (TPoint.GetY p).
Proof.
  intros Hpad HX HY w'.
  assert (Hone : forall f : TCurlyArc -> TCurlyArc,
             gPad (exec (Build B) (with_this (f (this w)) w)) = Some pad
             /\ fX1 (this (exec (Build B) (with_this (f (this w)) w)))
                = fX1 (f (this w))
             /\ fY1 (this (exec (Build B) (with_this (f (this w)) w)))
                = fY1 (f (this w))).
  { intros f.
    pose proof (Build_fields B (with_this (f (this w)) w)) as F.
    pose proof (Build_globals B (with_this (f (this w)) w)) as G.
    cbn zeta in G. destruct G as (G & _). cbn [gPad with_this] in G.
    pose proof (f_equal center F) as Fc. cbn in Fc.
    pose proof (f_equal fst Fc) as F1. pose proof (f_equal snd Fc) as F2.
    cbn in F1, F2. rewrite G, Hpad. repeat split; assumption. }
  assert (EX : exec (SetBBoxCenterX B (TPoint.GetX p)) w
               = exec (Build B)
                   (with_this (set_fX1 (PixeltoX pad (TPoint.GetX p)) (this w))
                              w)).
  { unfold SetBBoxCenterX. run_M. rewrite Hpad. reflexivity. }
  assert (EY : exec (SetBBoxCenterY B (TPoint.GetY p)) w
               = exec (Build B)
                   (with_this
                      (set_fY1 (PixeltoY pad (TPoint.GetY p - VtoPixel pad 0))
                               (this w)) w)).
  { unfold SetBBoxCenterY. run_M. rewrite Hpad. reflexivity. }
  assert (HXY : GetBBoxCenter (exec (SetBBoxCenterX B (TPoint.GetX p)) w)
                = TPoint.mk (TPoint.GetX p) (TPoint.GetY (GetBBoxCenter w))
                /\ GetBBoxCenter (exec (SetBBoxCenterY B (TPoint.GetY p)) w)
                   = TPoint.mk (TPoint.GetX (GetBBoxCenter w)) (TPoint.GetY p)).
  { rewrite EX, EY. unfold GetBBoxCenter. rewrite Hpad.
    destruct (Hone (set_fX1 (PixeltoX pad (TPoint.GetX p)))) as (-> & -> & ->).
    destruct (Hone (set_fY1 (PixeltoY pad (TPoint.GetY p - VtoPixel pad 0))))
      as (-> & -> & ->).
    cbn. rewrite HX, HY. split; reflexivity. }
  refine ((fun K => conj (proj1 K) (conj (proj1 (proj2 K))
            (conj (proj1 (proj2 (proj2 K)))
               (conj (proj2 (proj2 (proj2 K))) HXY)))) _).
  clear Hone EX EY HXY.
  assert (E : w' = exec (Build B)
                     (with_this
                        (set_fY1 (PixeltoY pad (TPoint.GetY p - VtoPixel pad 0))
                           (set_fX1 (PixeltoX pad (TPoint.GetX p)) (this w)))
                        w)).
  { subst w'. unfold SetBBoxCenter. run_M. rewrite Hpad. reflexivity. }
  rewrite E. clear E w'.
  match goal with |- context [exec (Build B) ?v] =>
    pose proof (Build_fields B v) as F; pose proof (Build_globals B v) as G;
    pose proof (Build_builds B v) as N;
    set (w' := exec (Build B) v) in * end.
  cbn zeta in G. destruct G as (G & _). cbn [gPad with_this] in G.
  apply fields_eq in F. cbn in F.
  destruct F as (F1 & F2 & F3 & F4 & F5 & F6 & F7 & F8).
  split; [|split; [exact F3|split; [|exact N]]].
  - unfold GetBBoxCenter. rewrite G, Hpad, F1, F2, HX, HY. destruct p; reflexivity.
  - unfold shape. rewrite F4, F5, F6, F7, F8. reflexivity.
Qed.

Lemma unitPad_pixel_exact (opaque : bool) :
  (forall p : Z, XtoPixel (unitPad opaque) (PixeltoX (unitPad opaque) p) = p)
  /\ (forall p : Z,
        YtoPixel (unitPad opaque)
          (PixeltoY (unitPad opaque) (p - VtoPixel (unitPad opaque) 0)) = p).
Proof.
  split; intros p.
  - apply NumFacts.Int_t_of_IZR.
  - assert (Hv : VtoPixel (unitPad opaque) 0 = 100%Z).
    { cbn. replace (100 - 100 * 0) with (IZR 100) by lra.
      apply NumFacts.Int_t_of_IZR. }
    rewrite Hv. cbn [unitPad YtoPixel PixeltoY].
    replace (100 - - IZR (p - 100)) with (IZR p)
      by (rewrite minus_IZR; lra).
    apply NumFacts.Int_t_of_IZR.
Qed.

Lemma center_set_then_get_witness :
  let w := upperHalf in
  let pad := unitPad false in
  let p := TPoint.mk 20 30 in
  gPad w = Some pad
  /\ (forall q : Z, XtoPixel pad (PixeltoX pad q) = q)
  /\ (forall q : Z, YtoPixel pad (PixeltoY pad (q - VtoPixel pad 0)) = q)
  /\ (let w' := exec (SetBBoxCenter StraightBuilder p) w in
      GetBBoxCenter w' = p
      /\ fR1 (this w') = fR1 (this w)
      /\ shape (this w') = shape (this w)
      /\ builds (trace w') = S (builds (trace w))
      /\ GetBBoxCenter
           (exec (SetBBoxCenterX StraightBuilder (TPoint.GetX p)) w)
         = TPoint.mk (TPoint.GetX p) (TPoint.GetY (GetBBoxCenter w))
      /\ GetBBoxCenter
           (exec (SetBBoxCenterY StraightBuilder (TPoint.GetY p)) w)
         = TPoint.mk (TPoint.GetX (GetBBoxCenter w)) (TPoint.GetY p)).
Proof.
  intros w pad p.
  split; [reflexivity|].
  split; [exact (proj1 (unitPad_pixel_exact false))|].
  split; [exact (proj2 (unitPad_pixel_exact false))|].
  exact (center_set_then_get StraightBuilder w pad p eq_refl
           (proj1 (unitPad_pixel_exact false))
           (proj2 (unitPad_pixel_exact false))).
Defined.

Lemma without_host_nothing_moves_witness :
  let w := noPadWorld in
  let p := TPoint.mk 20 30 in
  gPad w = None
  /\ (GetBBox w = Rectangle_t.mk 0 0 0 0
      /\ GetBBoxCenter w = TPoint.mk 0 0
      /\ DistancetoPrimitive 40 50 w = Distance 9999
      /\ exec (SetBBoxCenter StraightBuilder p) w = w
      /\ exec (SetBBoxCenterX StraightBuilder 30) w = w
      /\ exec (SetBBoxCenterY StraightBuilder 30) w = w
      /\ exec (SetBBoxX1 30) w = w
      /\ exec (SetBBoxX2 30) w = w
      /\ exec (SetBBoxY1 30) w = w
      /\ exec (SetBBoxY2 30) w = w
      /\ exec (ExecuteEvent StraightBuilder kButton1Up 40 50) w = w
      /\ trace (exec (Build StraightBuilder) w)
         = trace w ++ [CurlyLine_Build (segment_of (this w))]).
Proof.
  intros w p. split; [reflexivity|].
  exact (without_host_nothing_moves StraightBuilder w p 30 kButton1Up 40 50
           eq_refl).
Defined.

(** ** Further properties: the interaction *)

Section Interaction.

Variable B : option TVirtualPad -> TCurlyArc -> list (R * R).

Lemma ExecuteEvent_on_pad (w : World) (pad : TVirtualPad)
      (event : EEventType) (px py : Z) :
  gPad w = Some pad ->
  ExecuteEvent B event px py w =
  match event with
  | kArrowKeyPress | kButton1Down =>
      (ExecuteEvent_down pad ;; ExecuteEvent_hover pad px py) w
  | kMouseMotion => ExecuteEvent_hover pad px py w
  | kArrowKeyRelease | kButton1Motion =>
      ExecuteEvent_motion B pad event px py w
  | kButton1Up => ExecuteEvent_up B pad event w
  | kOtherEvent _ => (tt, w)
  end.
Proof.
  intros H. unfold ExecuteEvent, bind at 1, get_gPad. rewrite H.
  destruct event; reflexivity.
Qed.

(** The statics are overwritten last. *)
Lemma drag_after_put {A C} (c1 : M A) (c2 : M C) (d : DragStatics)
      (w : World) :
  drag (snd ((c1 ;; c2 ;; put_drag d) w)) = d.
Proof.
  unfold bind. destruct (c1 w) as [x w1]. destruct (c2 w1) as [y w2].
  reflexivity.
Qed.

Lemma motion_statics (w : World) (pad : TVirtualPad) (event : EEventType)
      (px py : Z) :
  drag (snd (ExecuteEvent_motion B pad event px py w))
  = dragged (drag w) px py.
Proof.
  unfold ExecuteEvent_motion. unfold bind at 1. unfold get_drag at 1.
  cbn zeta. rewrite drag_after_put.
  unfold dragged, radius_step. cbn zeta.
  destruct (pTop (drag w)), (pBot (drag w)), (pL (drag w)), (pR (drag w)),
    (pINSIDE (drag w)); f_equal; lia.
Qed.

Lemma fixes_ret {T A} (f : World -> T) (x : A) : fixes f (ret x).
Proof. intros w. reflexivity. Qed.

Lemma fixes_bind {T A C} (f : World -> T) (c : M A) (k : A -> M C) :
  fixes f c -> (forall x, fixes f (k x)) -> fixes f (bind c k).
Proof.
  intros Hc Hk w. unfold bind. specialize (Hc w).
  destruct (c w) as [x w1]. cbn [snd] in Hc. rewrite <- Hc. apply Hk.
Qed.

Lemma fixes_when {T} (f : World -> T) (b : bool) (c : M unit) :
  fixes f c -> fixes f (when b c).
Proof. intros H. destruct b; [exact H | apply fixes_ret]. Qed.

Ltac fixes_step :=
  first [ assumption
        | match goal with H : forall _, fixes _ _ |- _ => apply H end
        | match goal with H : forall _ _, fixes _ _ |- _ => apply H end
        | apply fixes_when
        | apply fixes_ret
        | (intros ?; reflexivity)
        | apply fixes_bind; [|intro] ].

Lemma Build_fixes_gPad : fixes gPad (Build B).
Proof. intros w. rewrite Build_eq. reflexivity. Qed.

Lemma SetStartPoint_fixes_gPad (x y : R) : fixes gPad (SetStartPoint B x y).
Proof.
  pose proof Build_fixes_gPad. unfold SetStartPoint. repeat fixes_step.
Qed.

Lemma SetRadius_fixes_gPad (x : R) : fixes gPad (SetRadius B x).
Proof.
  pose proof Build_fixes_gPad. unfold SetRadius. repeat fixes_step.
Qed.

Lemma motion_fixes_gPad (pad : TVirtualPad) (event : EEventType)
      (px py : Z) :
  fixes gPad (ExecuteEvent_motion B pad event px py).
Proof.
  pose proof SetStartPoint_fixes_gPad. pose proof SetRadius_fixes_gPad.
  unfold ExecuteEvent_motion. cbn zeta. repeat fixes_step.
Qed.

Lemma exec_seq (c k : M unit) (w : World) :
  exec (c ;; k) w = exec k (exec c w).
Proof. unfold exec, bind. destruct (c w) as [[] w1]. reflexivity. Qed.

(** Two steps of a drag are one step to where the second ends. *)
Lemma dragged_dragged (d : DragStatics) (px py px' py' : Z) :
  dragged (dragged d px py) px' py' = dragged d px' py'.
Proof.
  destruct d as [x1 y1 r xo yo t l rr b i tx ty lx ly rx ry bx by_].
  unfold dragged, radius_step. cbn.
  destruct t, l, rr, b, i; f_equal; lia.
Qed.

Lemma motion_step (w : World) (pad : TVirtualPad) (px py : Z) :
  gPad w = Some pad ->
  let w' := exec (ExecuteEvent B kButton1Motion px py) w in
  gPad w' = Some pad /\ drag w' = dragged (drag w) px py.
Proof.
  intros H. cbn zeta. unfold exec.
  rewrite (ExecuteEvent_on_pad w pad kButton1Motion px py H).
  rewrite motion_fixes_gPad, motion_statics. split; [exact H|reflexivity].
Qed.

Lemma drags_statics (path : list (Z * Z)) :
  forall (w : World) (pad : TVirtualPad) (px py : Z),
    gPad w = Some pad ->
    let w' := exec (drags B (path ++ [(px, py)])) w in
    gPad w' = Some pad /\ drag w' = dragged (drag w) px py.
Proof.
  induction path as [|[p q] path IH]; intros w pad px py H; cbn zeta.
  - cbn [app drags]. rewrite exec_seq.
    destruct (motion_step w pad px py H) as [G D]. exact (conj G D).
  - cbn [app drags]. rewrite exec_seq.
    destruct (motion_step w pad p q H) as [G D].
    destruct (IH _ pad px py G) as [G' D'].
    split; [exact G'|]. rewrite D', D. apply dragged_dragged.
Qed.

(** X13: a drag ends where the cursor ends. After any path of motion events
    the function statics are those that a single motion to the last cursor
    position gives: the handle flags are those of the start, the working
    pixel radius has changed by the signed displacement along the axis of
    the active handle, and the working center has followed the cursor when
    the body is the handle, and has stayed otherwise. *)
Theorem drag_ends_where_cursor_ends (w : World) (pad : TVirtualPad)
        (path : list (Z * Z)) (px py : Z) :
  gPad w = Some pad ->
  let d := drag w in
  let d' := drag (exec (drags B (path ++ [(px, py)])) w) in
  d' = dragged d px py
  /\ handle_flags d' = handle_flags d
  /\ r1 d' = (r1 d + radius_step d (px - pxold d) (py - pyold d))%Z
  /\ px1 d' = (if pINSIDE d then px1 d + (px - pxold d) else px1 d)%Z
  /\ py1 d' = (if pINSIDE d then py1 d + (py - pyold d) else py1 d)%Z
  /\ (pxold d', pyold d') = (px, py).
Proof.
  intros H d d'.
  destruct (drags_statics path w pad px py H) as [_ D]. fold d d' in D.
  rewrite D. repeat split.
Qed.

Lemma builds_snoc_cursor (t : list Call) (c : ECursor) :
  builds (t ++ [Pad_SetCursor c]) = builds t.
Proof. rewrite builds_app. cbn. lia. Qed.

(** What the hover of lines 237-272 leaves. *)
Lemma hover_effect (w : World) (pad : TVirtualPad) (px py : Z) :
  let w' := snd (ExecuteEvent_hover pad px py w) in
  let d := drag w' in
  this w' = this w /\ gPad w' = gPad w
  /\ builds (trace w') = builds (trace w)
  /\ count_occ bool_dec (handle_flags d) true = 1%nat
  /\ r1 d = r1 (drag w)
  /\ (px1 d, py1 d)
     = (XtoAbsPixel pad (fX1 (this w)), YtoAbsPixel pad (fY1 (this w)))
  /\ (pxold d, pyold d) = (px, py).
Proof.
  unfold ExecuteEvent_hover. run_M.
  repeat match goal with
         | |- context [if ?c then _ else _] => destruct c
         end;
    run_M; cbn [px1 py1 r1 pxold pyold handle_flags pTop pBot pL pR pINSIDE];
    rewrite builds_snoc_cursor; repeat split.
Qed.

(** Which handle the hover picks when the cursor is near none of the four
    edge handles: the body. *)
Lemma hover_inside (w : World) (pad : TVirtualPad) (px py : Z) :
  let a := this w in
  let cx := XtoAbsPixel pad (fX1 a) in
  let cy := YtoAbsPixel pad (fY1 a) in
  let lx := XtoAbsPixel pad (- fR1 a + fX1 a) in
  let rx := XtoAbsPixel pad (fR1 a + fX1 a) in
  let half := Z.quot (Z.abs (lx - rx)) 2 in
  near px cx && near py (cy + half) = false ->
  near px cx && near py (cy - half) = false ->
  near py cy && near px lx = false ->
  near py cy && near px rx = false ->
  pINSIDE (drag (snd (ExecuteEvent_hover pad px py w))) = true.
Proof.
  cbn zeta. intros H1 H2 H3 H4.
  unfold ExecuteEvent_hover. run_M. unfold TMath.AbsI.
  rewrite H1, H2, H3, H4. reflexivity.
Qed.

(** What lines 205-214 leave when the button goes down. *)
Lemma down_effect (w : World) (pad : TVirtualPad) :
  let w' := snd (ExecuteEvent_down pad w) in
  this w' = this w /\ gPad w' = gPad w /\ trace w' = trace w
  /\ r1 (drag w')
     = Z.quot (Z.abs (XtoAbsPixel pad (- fR1 (this w) + fX1 (this w))
                      - XtoAbsPixel pad (fR1 (this w) + fX1 (this w)))) 2.
Proof. unfold ExecuteEvent_down. run_M. repeat split. Qed.

Lemma press_effect (w : World) (pad : TVirtualPad) (px py : Z) :
  let w' := snd ((ExecuteEvent_down pad ;; ExecuteEvent_hover pad px py) w) in
  let d := drag w' in
  this w' = this w /\ gPad w' = gPad w
  /\ builds (trace w') = builds (trace w)
  /\ count_occ bool_dec (handle_flags d) true = 1%nat
  /\ r1 d
     = Z.quot (Z.abs (XtoAbsPixel pad (- fR1 (this w) + fX1 (this w))
                      - XtoAbsPixel pad (fR1 (this w) + fX1 (this w)))) 2
  /\ (px1 d, py1 d)
     = (XtoAbsPixel pad (fX1 (this w)), YtoAbsPixel pad (fY1 (this w)))
  /\ (pxold d, pyold d) = (px, py).
Proof.
  cbn zeta. unfold bind.
  pose proof (down_effect w pad) as D. cbn zeta in D.
  destruct (ExecuteEvent_down pad w) as [[] w1]. cbn [snd] in D.
  destruct D as (D1 & D2 & D3 & D4).
  pose proof (hover_effect w1 pad px py) as Hh. cbn zeta in Hh.
  rewrite D1, D2, D3, D4 in Hh. exact Hh.
Qed.

(** X14: a hover ([kMouseMotion]) and a press ([kButton1Down]) select
    exactly one of the five handles (top, bottom, left, right, body), note
    the cursor position, and set the working pixel center to the pixel of
    the center of the arc; they neither touch the arc nor ask for a
    rebuild. The hover leaves the working pixel radius as it is; the press
    sets it to half the pixel width of the arc, which is not negative. *)
Theorem hover_and_press_select_one_handle (w : World) (pad : TVirtualPad)
        (px py : Z) :
  gPad w = Some pad ->
  let a := this w in
  let h := exec (ExecuteEvent B kMouseMotion px py) w in
  let p := exec (ExecuteEvent B kButton1Down px py) w in
  (this h = a /\ builds (trace h) = builds (trace w)
   /\ count_occ bool_dec (handle_flags (drag h)) true = 1%nat
   /\ r1 (drag h) = r1 (drag w)
   /\ (px1 (drag h), py1 (drag h))
      = (XtoAbsPixel pad (fX1 a), YtoAbsPixel pad (fY1 a))
   /\ (pxold (drag h), pyold (drag h)) = (px, py))
  /\ (this p = a /\ builds (trace p) = builds (trace w)
      /\ count_occ bool_dec (handle_flags (drag p)) true = 1%nat
      /\ r1 (drag p)
         = Z.quot (Z.abs (XtoAbsPixel pad (- fR1 a + fX1 a)
                          - XtoAbsPixel pad (fR1 a + fX1 a))) 2
      /\ (0 <= r1 (drag p))%Z
      /\ (px1 (drag p), py1 (drag p))
         = (XtoAbsPixel pad (fX1 a), YtoAbsPixel pad (fY1 a))
      /\ (pxold (drag p), pyold (drag p)) = (px, py)).
Proof.
  intros H a h p. subst h p. unfold exec.
  rewrite (ExecuteEvent_on_pad w pad kMouseMotion px py H).
  rewrite (ExecuteEvent_on_pad w pad kButton1Down px py H).
  destruct (hover_effect w pad px py) as (H1 & _ & H3 & H4 & H5 & H6 & H7).
  destruct (press_effect w pad px py) as (P1 & _ & P3 & P4 & P5 & P6 & P7).
  split; [repeat split; assumption|].
  repeat split; try assumption.
  rewrite P5. apply Z.quot_pos; lia.
Qed.

(** In non-opaque mode a step of a drag only updates the statics. *)
Lemma motion_rubber_band (w : World) (pad : TVirtualPad)
      (event : EEventType) (px py : Z) :
  OpaqueMoving pad = false ->
  let w' := snd (ExecuteEvent_motion B pad event px py w) in
  this w' = this w /\ trace w' = trace w.
Proof.
  intros Hop. unfold ExecuteEvent_motion. rewrite Hop. cbn zeta. run_M.
  destruct (pTop (drag w)), (pBot (drag w)), (pL (drag w)), (pR (drag w)),
    (pINSIDE (drag w)); cbn; split; reflexivity.
Qed.

Lemma rubber_band_frame (w : World) (pad : TVirtualPad)
      (event : EEventType) (px py : Z) :
  gPad w = Some pad -> OpaqueMoving pad = false -> event <> kButton1Up ->
  this (exec (ExecuteEvent B event px py) w) = this w
  /\ builds (trace (exec (ExecuteEvent B event px py) w)) = builds (trace w)
  /\ gPad (exec (ExecuteEvent B event px py) w) = Some pad.
Proof.
  intros H Hop Hev. unfold exec.
  rewrite (ExecuteEvent_on_pad w pad event px py H).
  destruct event; try contradiction.
  - destruct (press_effect w pad px py) as (P1 & P2 & P3 & _).
    rewrite P2. repeat split; assumption.
  - destruct (motion_rubber_band w pad kButton1Motion px py Hop) as [M1 M2].
    rewrite motion_fixes_gPad, M1, M2. repeat split; assumption.
  - destruct (hover_effect w pad px py) as (P1 & P2 & P3 & _).
    rewrite P2. repeat split; assumption.
  - destruct (press_effect w pad px py) as (P1 & P2 & P3 & _).
    rewrite P2. repeat split; assumption.
  - destruct (motion_rubber_band w pad kArrowKeyRelease px py Hop)
      as [M1 M2].
    rewrite motion_fixes_gPad, M1, M2. repeat split; assumption.
  - repeat split; assumption.
Qed.

(** X15: in non-opaque mode no event but the release of the button touches
    the arc or asks for a rebuild: presses, hovers, steps of a drag and
    unknown events leave the object and the number of builds as they are. *)
Theorem rubber_band_leaves_the_arc (w : World) (pad : TVirtualPad)
        (event : EEventType) (px py : Z) :
  gPad w = Some pad ->
  OpaqueMoving pad = false ->
  event <> kButton1Up ->
  let w' := exec (ExecuteEvent B event px py) w in
  this w' = this w
  /\ builds (trace w') = builds (trace w)
  /\ gPad w' = Some pad.
Proof.
  intros H Hop Hev. cbn zeta.
  destruct (rubber_band_frame w pad event px py H Hop Hev) as (T & N & G).
  split; [exact T|]. split; [exact N | exact G].
Qed.

Lemma drags_rubber_band (path : list (Z * Z)) :
  forall (w : World) (pad : TVirtualPad),
    gPad w = Some pad -> OpaqueMoving pad = false ->
    this (exec (drags B path) w) = this w
    /\ builds (trace (exec (drags B path) w)) = builds (trace w)
    /\ gPad (exec (drags B path) w) = Some pad.
Proof.
  induction path as [|[p q] path IH]; intros w pad H Hop.
  - repeat split. exact H.
  - cbn [drags]. rewrite exec_seq.
    assert (Hne : kButton1Motion <> kButton1Up) by discriminate.
    destruct (rubber_band_frame w pad kButton1Motion p q H Hop Hne)
      as (T & N & G).
    destruct (IH _ pad G Hop) as (T' & N' & G').
    split; [rewrite T', T; reflexivity|].
    split; [rewrite N', N; reflexivity | exact G'].
Qed.

(** What the release of lines 394-406 leaves. *)
Lemma up_effect (w : World) (pad : TVirtualPad) (event : EEventType) :
  gPad w = Some pad ->
  let a := this w in
  let d := drag w in
  let w' := snd (ExecuteEvent_up B pad event w) in
  fields (this w')
  = (if OpaqueMoving pad then fields a
     else mkFields (AbsPixeltoX pad (px1 d), AbsPixeltoY pad (py1 d))
                   (Rabs (AbsPixeltoX pad (px1 d - r1 d)
                          - AbsPixeltoX pad (px1 d + r1 d)) / 2)
                   (fPhimin a) (fPhimax a) (fWaveLength a) (fAmplitude a)
                   (fIsCurly a))
  /\ builds (trace w') = S (builds (trace w))
  /\ drag w' = d /\ gPad w' = Some pad.
Proof.
  intros H. cbn zeta. unfold ExecuteEvent_up.
  destruct (OpaqueMoving pad); run_M; rewrite Build_eq; cbn;
    rewrite built_fields, !builds_app; cbn; rewrite builds_pad_calls;
    repeat split; try assumption; try reflexivity; lia.
Qed.

(** X16: the release of the button rebuilds the polyline once and leaves
    the function statics alone. In opaque mode the fields of the arc are
    those of before; in non-opaque mode the center becomes the point of the
    working pixel center and the radius half the absolute width between the
    points of the two working pixel edges, the span, wave parameters and
    mode being those of before. The position of the cursor at the release
    plays no part. *)
Theorem release_commits_working_geometry (w : World) (pad : TVirtualPad)
        (px py px' py' : Z) :
  gPad w = Some pad ->
  let a := this w in
  let d := drag w in
  let w' := exec (ExecuteEvent B kButton1Up px py) w in
  fields (this w')
  = (if OpaqueMoving pad then fields a
     else mkFields (AbsPixeltoX pad (px1 d), AbsPixeltoY pad (py1 d))
                   (Rabs (AbsPixeltoX pad (px1 d - r1 d)
                          - AbsPixeltoX pad (px1 d + r1 d)) / 2)
                   (fPhimin a) (fPhimax a) (fWaveLength a) (fAmplitude a)
                   (fIsCurly a))
  /\ builds (trace w') = S (builds (trace w))
  /\ drag w' = d
  /\ exec (ExecuteEvent B kButton1Up px' py') w = w'.
Proof.
  intros H a d w'. subst w'. unfold exec.
  rewrite (ExecuteEvent_on_pad w pad kButton1Up px py H).
  rewrite (ExecuteEvent_on_pad w pad kButton1Up px' py' H).
  destruct (up_effect w pad kButton1Up H) as (F & N & D & _).
  repeat split; assumption.
Qed.

(** X17: a drag of the body in non-opaque mode. When the press selects the
    body, any path of motions followed by the release puts the center of
    the arc at the point of the pixel of the old center shifted by the
    displacement of the cursor between the press and the last motion; the
    radius is read back from the half pixel width taken at the press; the
    span, wave parameters and mode are untouched, and the polyline is built
    once, at the release. *)
Theorem body_drag_translates_center (w : World) (pad : TVirtualPad)
        (px0 py0 : Z) (path : list (Z * Z)) (px py : Z) :
  gPad w = Some pad ->
  OpaqueMoving pad = false ->
  pINSIDE (drag (exec (ExecuteEvent B kButton1Down px0 py0) w)) = true ->
  let a := this w in
  let w' :=
    exec (ExecuteEvent B kButton1Down px0 py0 ;;
          drags B (path ++ [(px, py)]) ;;
          ExecuteEvent B kButton1Up px py) w in
  let cx := (XtoAbsPixel pad (fX1 a) + (px - px0))%Z in
  let cy := (YtoAbsPixel pad (fY1 a) + (py - py0))%Z in
  let r := Z.quot (Z.abs (XtoAbsPixel pad (- fR1 a + fX1 a)
                          - XtoAbsPixel pad (fR1 a + fX1 a))) 2 in
  fields (this w')
  = mkFields (AbsPixeltoX pad cx, AbsPixeltoY pad cy)
             (Rabs (AbsPixeltoX pad (cx - r) - AbsPixeltoX pad (cx + r)) / 2)
             (fPhimin a) (fPhimax a) (fWaveLength a) (fAmplitude a)
             (fIsCurly a)
  /\ builds (trace w') = S (builds (trace w)).
Proof.
  intros H Hop Hin a w' cx cy r. subst w'. rewrite !exec_seq.
  set (w1 := exec (ExecuteEvent B kButton1Down px0 py0) w) in *.
  assert (P : this w1 = a /\ gPad w1 = Some pad
              /\ builds (trace w1) = builds (trace w)
              /\ count_occ bool_dec (handle_flags (drag w1)) true = 1%nat
              /\ r1 (drag w1) = r
              /\ (px1 (drag w1), py1 (drag w1))
                 = (XtoAbsPixel pad (fX1 a), YtoAbsPixel pad (fY1 a))
              /\ (pxold (drag w1), pyold (drag w1)) = (px0, py0)).
  { subst w1. unfold exec.
    rewrite (ExecuteEvent_on_pad w pad kButton1Down px0 py0 H).
    destruct (press_effect w pad px0 py0) as (P1 & P2 & P3 & P4 & P5 & P6 & P7).
    rewrite P2. repeat split; assumption. }
  destruct P as (P1 & P2 & P3 & P4 & P5 & P6 & P7).
  injection P6 as Px Py. injection P7 as Ox Oy.
  assert (Hflags : pTop (drag w1) = false /\ pBot (drag w1) = false
                   /\ pL (drag w1) = false /\ pR (drag w1) = false).
  { revert P4. unfold handle_flags. rewrite Hin.
    destruct (pTop (drag w1)), (pBot (drag w1)), (pL (drag w1)),
      (pR (drag w1)); cbn; intros E; try discriminate E; repeat split. }
  destruct Hflags as (Ft & Fb & Fl & Fr).
  set (w2 := exec (drags B (path ++ [(px, py)])) w1) in *.
  destruct (drags_rubber_band (path ++ [(px, py)]) w1 pad P2 Hop)
    as (T2 & N2 & G2). fold w2 in T2, N2, G2.
  destruct (drags_statics path w1 pad px py P2) as (_ & D2). fold w2 in D2.
  unfold exec at 1 2.
  rewrite (ExecuteEvent_on_pad w2 pad kButton1Up px py G2).
  destruct (up_effect w2 pad kButton1Up G2) as (F & N & _).
  rewrite Hop in F. rewrite F, N, N2, P3, T2, P1, D2.
  unfold dragged, radius_step. cbn [px1 py1 r1].
  rewrite Hin, Ft, Fb, Fl, Fr, Px, Py, Ox, Oy, P5.
  replace (r + (0 - 0 - 0 + 0))%Z with r by lia.
  split; reflexivity.
Qed.

End Interaction.

Section EventFrame.

Variable B : option TVirtualPad -> TCurlyArc -> list (R * R).
Variable Q : TCurlyArc -> Prop.
Hypothesis Q_Build : keeps Q (Build B).
Hypothesis Q_fX1 : forall a v, Q a -> Q (set_fX1 v a).
Hypothesis Q_fY1 : forall a v, Q a -> Q (set_fY1 v a).
Hypothesis Q_fR1 : forall a u, Q a -> Q (set_fR1 (Rabs u / 2) a).

Ltac keeps_step :=
  first [ exact Q_Build
        | apply keeps_ret | apply keeps_get_gPad | apply keeps_get_this
        | apply keeps_get_drag | apply keeps_call | apply keeps_put_drag
        | apply keeps_modify_drag
        | apply keeps_when
        | (apply keeps_modify_this; intros ? ?;
           first [apply Q_fX1 | apply Q_fY1 | apply Q_fR1]; assumption)
        | match goal with
          | |- keeps _ (if ?c then _ else _) => destruct c
          end
        | apply keeps_bind; [|intro] ].

(** A property of the arc that the rebuild and the writes of the center
    and of an absolute half width keep is kept by every mouse event. *)
Lemma keeps_event (event : EEventType) (px py : Z) :
  keeps Q (ExecuteEvent B event px py).
Proof.
  unfold ExecuteEvent. apply keeps_bind; [apply keeps_get_gPad|].
  intros [pad|]; [|apply keeps_ret].
  destruct event;
    unfold ExecuteEvent_down, ExecuteEvent_hover, ExecuteEvent_motion,
      ExecuteEvent_up, SetStartPoint, SetRadius, TMath.Abs;
    cbn zeta; repeat keeps_step.
Qed.

End EventFrame.

Section ShapeFrame.

Variable B : option TVirtualPad -> TCurlyArc -> list (R * R).

Lemma Build_shape (w : World) :
  shape (this (exec (Build B) w)) = shape (this w).
Proof.
  pose proof (Build_fields B w) as F. unfold fields in F. unfold shape.
  pose proof (f_equal phiMin F). pose proof (f_equal phiMax F).
  pose proof (f_equal waveLength F). pose proof (f_equal amplitude F).
  pose proof (f_equal isCurly F). cbn in *. congruence.
Qed.

Lemma resize_shape (op : ResizeOp) (w : World) :
  shape (this (exec (resize B op) w)) = shape (this w).
Proof.
  destruct op; cbn [resize]; try apply edge_setters_shape.
  apply (keeps_event B (fun a => shape a = shape (this w))); try reflexivity.
  - intros v Hv. change (snd (Build B v)) with (exec (Build B) v).
    rewrite Build_shape. exact Hv.
  - intros a v Ha. exact Ha.
  - intros a v Ha. exact Ha.
  - intros a u Ha. exact Ha.
Qed.

(** X18: no sequence of moves of the bounding-box edges and of mouse events,
    in either mode of the pad, changes the angular span, the wave length,
    the amplitude or the mode of the arc. *)
Theorem resizes_keep_the_shape (ops : list ResizeOp) (w : World) :
  shape (this (exec (resizes B ops) w)) = shape (this w).
Proof.
  revert w. induction ops as [|op ops IH]; intros w.
  - reflexivity.
  - cbn [resizes]. rewrite exec_seq, IH. apply resize_shape.
Qed.

End ShapeFrame.

(** ** The further statements at concrete inputs *)

Lemma press_on_body :
  pINSIDE (drag (exec (ExecuteEvent StraightBuilder kButton1Down 50 50)
                      upperHalf)) = true.
Proof.
  unfold exec.
  rewrite (ExecuteEvent_on_pad StraightBuilder upperHalf (unitPad false)
             kButton1Down 50 50 eq_refl).
  unfold bind.
  pose proof (down_effect upperHalf (unitPad false)) as D. cbn zeta in D.
  destruct (ExecuteEvent_down (unitPad false) upperHalf) as [[] w1].
  cbn [snd] in D. destruct D as (D1 & _).
  apply hover_inside; rewrite D1;
    cbn [upperHalf startWorld this rawArc fX1 fY1 fR1];
    replace (- (10) + 50) with (IZR 40) by lra;
    replace (10 + 50) with (IZR 60) by lra;
    rewrite ?(proj1 (unitPad_X false 50)), ?(proj1 (unitPad_Y false 50)),
      ?(proj1 (unitPad_X false 40)), ?(proj1 (unitPad_X false 60));
    reflexivity.
Qed.

Lemma drag_ends_where_cursor_ends_witness :
  let w := upperHalf in
  let pad := unitPad false in
  gPad w = Some pad
  /\ (let d := drag w in
      let d' :=
        drag (exec (drags StraightBuilder ([(51, 50)%Z] ++ [(55, 53)%Z])) w)
      in
      d' = dragged d 55 53
      /\ handle_flags d' = handle_flags d
      /\ r1 d' = (r1 d + radius_step d (55 - pxold d) (53 - pyold d))%Z
      /\ px1 d' = (if pINSIDE d then px1 d + (55 - pxold d) else px1 d)%Z
      /\ py1 d' = (if pINSIDE d then py1 d + (53 - pyold d) else py1 d)%Z
      /\ (pxold d', pyold d') = (55%Z, 53%Z)).
Proof.
  intros w pad. split; [reflexivity|].
  exact (drag_ends_where_cursor_ends StraightBuilder w pad [(51, 50)%Z]
           55 53 eq_refl).
Defined.

Lemma hover_and_press_select_one_handle_witness :
  let w := upperHalf in
  let pad := unitPad false in
  gPad w = Some pad
  /\ (let a := this w in
      let h := exec (ExecuteEvent StraightBuilder kMouseMotion 50 50) w in
      let p := exec (ExecuteEvent StraightBuilder kButton1Down 50 50) w in
      (this h = a /\ builds (trace h) = builds (trace w)
       /\ count_occ bool_dec (handle_flags (drag h)) true = 1%nat
       /\ r1 (drag h) = r1 (drag w)
       /\ (px1 (drag h), py1 (drag h))
          = (XtoAbsPixel pad (fX1 a), YtoAbsPixel pad (fY1 a))
       /\ (pxold (drag h), pyold (drag h)) = (50%Z, 50%Z))
      /\ (this p = a /\ builds (trace p) = builds (trace w)
          /\ count_occ bool_dec (handle_flags (drag p)) true = 1%nat
          /\ r1 (drag p)
             = Z.quot (Z.abs (XtoAbsPixel pad (- fR1 a + fX1 a)
                              - XtoAbsPixel pad (fR1 a + fX1 a))) 2
          /\ (0 <= r1 (drag p))%Z
          /\ (px1 (drag p), py1 (drag p))
             = (XtoAbsPixel pad (fX1 a), YtoAbsPixel pad (fY1 a))
          /\ (pxold (drag p), pyold (drag p)) = (50%Z, 50%Z))).
Proof.
  intros w pad. split; [reflexivity|].
  exact (hover_and_press_select_one_handle StraightBuilder w pad 50 50
           eq_refl).
Defined.

Lemma rubber_band_leaves_the_arc_witness :
  let w := upperHalf in
  let pad := unitPad false in
  gPad w = Some pad
  /\ OpaqueMoving pad = false
  /\ kButton1Motion <> kButton1Up
  /\ (let w' := exec (ExecuteEvent StraightBuilder kButton1Motion 55 53) w in
      this w' = this w
      /\ builds (trace w') = builds (trace w)
      /\ gPad w' = Some pad).
Proof.
  intros w pad.
  assert (Hne : kButton1Motion <> kButton1Up) by discriminate.
  split; [reflexivity|]. split; [reflexivity|]. split; [exact Hne|].
  exact (rubber_band_leaves_the_arc StraightBuilder w pad kButton1Motion
           55 53 eq_refl eq_refl Hne).
Defined.

Lemma release_commits_working_geometry_witness :
  let w := upperHalf in
  let pad := unitPad false in
  gPad w = Some pad
  /\ (let a := this w in
      let d := drag w in
      let w' := exec (ExecuteEvent StraightBuilder kButton1Up 55 53) w in
      fields (this w')
      = (if OpaqueMoving pad then fields a
         else mkFields (AbsPixeltoX pad (px1 d), AbsPixeltoY pad (py1 d))
                       (Rabs (AbsPixeltoX pad (px1 d - r1 d)
                              - AbsPixeltoX pad (px1 d + r1 d)) / 2)
                       (fPhimin a) (fPhimax a) (fWaveLength a)
                       (fAmplitude a) (fIsCurly a))
      /\ builds (trace w') = S (builds (trace w))
      /\ drag w' = d
      /\ exec (ExecuteEvent StraightBuilder kButton1Up 0 0) w = w').
Proof.
  intros w pad. split; [reflexivity|].
  exact (release_commits_working_geometry StraightBuilder w pad 55 53 0 0
           eq_refl).
Defined.

Lemma body_drag_translates_center_witness :
  let w := upperHalf in
  let pad := unitPad false in
  gPad w = Some pad
  /\ OpaqueMoving pad = false
  /\ pINSIDE (drag (exec (ExecuteEvent StraightBuilder kButton1Down 50 50) w))
     = true
  /\ (let a := this w in
      let w' :=
        exec (ExecuteEvent StraightBuilder kButton1Down 50 50 ;;
              drags StraightBuilder ([(51, 50)%Z] ++ [(55, 53)%Z]) ;;
              ExecuteEvent StraightBuilder kButton1Up 55 53) w in
      let cx := (XtoAbsPixel pad (fX1 a) + (55 - 50))%Z in
      let cy := (YtoAbsPixel pad (fY1 a) + (53 - 50))%Z in
      let r := Z.quot (Z.abs (XtoAbsPixel pad (- fR1 a + fX1 a)
                              - XtoAbsPixel pad (fR1 a + fX1 a))) 2 in
      fields (this w')
      = mkFields (AbsPixeltoX pad cx, AbsPixeltoY pad cy)
                 (Rabs (AbsPixeltoX pad (cx - r) - AbsPixeltoX pad (cx + r))
                  / 2)
                 (fPhimin a) (fPhimax a) (fWaveLength a) (fAmplitude a)
                 (fIsCurly a)
      /\ builds (trace w') = S (builds (trace w))).
Proof.
  intros w pad.
  split; [reflexivity|]. split; [reflexivity|]. split; [exact press_on_body|].
  exact (body_drag_translates_center StraightBuilder w pad 50 50
           [(51, 50)%Z] 55 53 eq_refl eq_refl press_on_body).
Defined.

Lemma pixel_angle_range_witness :
  pixel_distance (unitPad false) (this upperHalf) 40 50 <> 0
  /\ 0 <= pixel_angle (unitPad false) (this upperHalf) 40 50 < 360.
Proof.
  split; [exact upperHalf_off_center|].
  exact (pixel_angle_range (unitPad false) (this upperHalf) 40 50
           upperHalf_off_center).
Defined.

(** ** Further properties: the live edit *)

Section LiveEdit.

Variable B : option TVirtualPad -> TCurlyArc -> list (R * R).

Lemma exec_call_this (c : Call) (w : World) : this (exec (call c) w) = this w.
Proof. reflexivity. Qed.

Lemma exec_when_call_this (b : bool) (c : Call) (w : World) :
  this (exec (when b (call c)) w) = this w.
Proof. destruct b; reflexivity. Qed.

Lemma SetRadius_radius (x : R) (w : World) :
  fR1 (this (exec (SetRadius B x) w)) = x
  /\ shape (this (exec (SetRadius B x) w)) = shape (this w).
Proof.
  unfold SetRadius. rewrite modify_then_Build.
  pose proof (Build_fields B (with_this (set_fR1 x (this w)) w)) as F.
  split; [exact (f_equal radius F)|]. rewrite Build_shape. reflexivity.
Qed.

Lemma SetStartPoint_shape (x y : R) (w : World) :
  shape (this (exec (SetStartPoint B x y) w)) = shape (this w).
Proof.
  assert (E : exec (SetStartPoint B x y) w
              = exec (Build B) (with_this (set_fY1 y (set_fX1 x (this w))) w))
    by reflexivity.
  rewrite E, Build_shape. reflexivity.
Qed.

(** X20: in opaque mode, a step of a drag with one of the four edge handles
    active commits the radius at once: the radius of the arc becomes half
    the absolute width between the points of the two working pixel edges,
    taken with the working pixel radius as this step has changed it; the
    span, wave parameters and mode are untouched. *)
Theorem live_resize_commits_radius (w : World) (pad : TVirtualPad)
        (px py : Z) :
  gPad w = Some pad ->
  OpaqueMoving pad = true ->
  pTop (drag w) || pBot (drag w) || pL (drag w) || pR (drag w) = true ->
  pINSIDE (drag w) = false ->
  let d := drag w in
  let r := (r1 d + radius_step d (px - pxold d) (py - pyold d))%Z in
  let w' := exec (ExecuteEvent B kButton1Motion px py) w in
  fR1 (this w')
  = Rabs (AbsPixeltoX pad (px1 d - r) - AbsPixeltoX pad (px1 d + r)) / 2
  /\ shape (this w') = shape (this w)
  /\ r1 (drag w') = r.
Proof.
  intros H Hop Hedge Hin d r w'.
  assert (Hd : drag w' = dragged d px py).
  { subst w'. unfold exec.
    rewrite (ExecuteEvent_on_pad B w pad kButton1Motion px py H).
    apply motion_statics. }
  assert (Et : this w'
               = this (exec (SetRadius B
                               (TMath.Abs (AbsPixeltoX pad (px1 d - r)
                                           - AbsPixeltoX pad (px1 d + r)) / 2))
                            (exec (SetStartPoint B (AbsPixeltoX pad (px1 d))
                                                 (AbsPixeltoY pad (py1 d)))
                                  w))).
  { subst w'. unfold exec at 1.
    rewrite (ExecuteEvent_on_pad B w pad kButton1Motion px py H).
    unfold ExecuteEvent_motion. unfold bind at 1. unfold get_drag at 1.
    cbn zeta. fold d. rewrite Hop.
    change (pTop (drag w) || pBot (drag w) || pL (drag w) || pR (drag w))
      with (pTop d || pBot d || pL d || pR d) in Hedge.
    change (pINSIDE (drag w)) with (pINSIDE d) in Hin.
    rewrite Hedge, Hin. cbn [when].
    match goal with
    | |- context [snd ((?c ;; ?k) w)] =>
        change (snd ((c ;; k) w)) with (exec (c ;; k) w)
    end.
    rewrite !exec_seq. rewrite exec_ret.
    match goal with
    | |- context [exec (put_drag ?D) ?v] =>
        change (this (exec (put_drag D) v)) with (this v)
    end.
    rewrite !exec_call_this, !exec_when_call_this.
    match goal with
    | |- this (exec (SetRadius B
                       (TMath.Abs (AbsPixeltoX pad (px1 d - ?z) - _) / 2)) _)
         = _ =>
        replace z with r
          by (subst r; unfold radius_step;
              destruct (pTop d), (pBot d), (pL d), (pR d); lia)
    end.
    reflexivity. }
  rewrite Et.
  match goal with
  | |- context [exec (SetRadius B ?x) ?v] =>
      destruct (SetRadius_radius x v) as [R1 R2]; rewrite R1, R2
  end.
  rewrite SetStartPoint_shape.
  split; [reflexivity|]. split; [reflexivity|]. rewrite Hd. reflexivity.
Qed.

End LiveEdit.

Lemma live_resize_commits_radius_witness :
  let w := rightHandleWorld in
  let pad := unitPad true in
  gPad w = Some pad
  /\ OpaqueMoving pad = true
  /\ pTop (drag w) || pBot (drag w) || pL (drag w) || pR (drag w) = true
  /\ pINSIDE (drag w) = false
  /\ (let d := drag w in
      let r := (r1 d + radius_step d (65 - pxold d) (52 - pyold d))%Z in
      let w' := exec (ExecuteEvent StraightBuilder kButton1Motion 65 52) w in
      fR1 (this w')
      = Rabs (AbsPixeltoX pad (px1 d - r) - AbsPixeltoX pad (px1 d + r)) / 2
      /\ shape (this w') = shape (this w)
      /\ r1 (drag w') = r).
Proof.
  intros w pad.
  split; [reflexivity|]. split; [reflexivity|]. split; [reflexivity|].
  split; [reflexivity|].
  exact (live_resize_commits_radius StraightBuilder w pad 65 52
           eq_refl eq_refl eq_refl eq_refl).
Defined.

(** ** Further properties: the radius under the mouse *)

(** X21: the events of the mouse keep a radius that is not negative so, one
    by one and in any sequence: wherever [ExecuteEvent] writes the radius,
    at lines 344 and 400, it writes half of an absolute value. *)
Theorem mouse_events_keep_radius_nonneg
        (B : option TVirtualPad -> TCurlyArc -> list (R * R))
        (w : World) (events : list (EEventType * Z * Z)) :
  0 <= fR1 (this w) ->
  0 <= fR1 (this (exec (resizes B (map (fun '(event, px, py) =>
                                          Mouse event px py) events)) w)).
Proof.
  revert w.
  change (keeps nonneg_radius
            (resizes B (map (fun '(event, px, py) => Mouse event px py)
                            events))).
  induction events as [|[[event px] py] events IH]; cbn [map resizes resize].
  - apply keeps_ret.
  - apply keeps_bind; [apply keeps_ExecuteEvent | intros _; exact IH].
Qed.

Lemma upperHalf_radius : 0 <= fR1 (this upperHalf).
Proof. change (0 <= 10). lra. Qed.

Lemma mouse_events_keep_radius_nonneg_witness :
  0 <= fR1 (this upperHalf)
  /\ 0 <= fR1 (this (exec (resizes StraightBuilder
                             (map (fun '(event, px, py) =>
                                     Mouse event px py)
                                  [(kButton1Down, 60%Z, 50%Z);
                                   (kButton1Motion, 65%Z, 50%Z);
                                   (kButton1Up, 65%Z, 50%Z)]))
                          upperHalf)).
Proof.
  split; [exact upperHalf_radius|].
  exact (mouse_events_keep_radius_nonneg StraightBuilder upperHalf
           [(kButton1Down, 60%Z, 50%Z); (kButton1Motion, 65%Z, 50%Z);
            (kButton1Up, 65%Z, 50%Z)] upperHalf_radius).
Defined.
